(** * easyminio: a facade over an S3-compatible object store

    Shallow embedding of [easyminio.go] and the properties of its
    specification.  The sequential facade operations are functions in a
    small state monad over the program's world (the [S3Service] cell and
    the log of requests sent to the store); [DownloadDirectory], which
    starts one goroutine per listed object, is a small-step interleaving
    semantics over an explicit state (goroutine program counters, the
    [sync.WaitGroup] counter, the unbuffered error channel). *)

From Stdlib Require Import ZArith String Ascii List Lia DecimalString DecimalPos.
From stdpp Require Import base option list strings gmap relations.

Local Open Scope string_scope.
Local Open Scope list_scope.

(** ** Go's [strings] package (the three functions the source calls) *)

Module gostrings.

(** [len(s) >= len(prefix) && s[0:len(prefix)] == prefix] *)
Definition HasPrefix (s prefix : string) : bool :=
  (String.length prefix <=? String.length s)%nat
  && String.eqb (substring 0 (String.length prefix) s) prefix.

(** [len(s) >= len(suffix) && s[len(s)-len(suffix):] == suffix] *)
Definition HasSuffix (s suffix : string) : bool :=
  (String.length suffix <=? String.length s)%nat
  && String.eqb
       (substring (String.length s - String.length suffix)
                  (String.length suffix) s)
       suffix.

(** [if HasPrefix(s, prefix) { return s[len(prefix):] }; return s] *)
Definition TrimPrefix (s prefix : string) : string :=
  if HasPrefix s prefix
  then substring (String.length prefix)
                 (String.length s - String.length prefix) s
  else s.

End gostrings.

(** ** Errors

    A Go [error] is an interface value; the two dynamic kinds this package
    handles are the errors handed back by the minio client and the
    [errorString] values built by [fmt.Errorf]. *)

Inductive error : Type :=
| StoreError (msg : string)
| ErrorString (msg : string).

(** The [Error()] method. *)
Definition Error (e : error) : string :=
  match e with
  | StoreError msg => msg
  | ErrorString msg => msg
  end.

#[global] Instance error_eq_dec : EqDecision error.
Proof. solve_decision. Defined.

(** ** Go's [fmt] package: the fragment of [Sprintf] / [Errorf] in use

    The verbs of the source are [%s] on a string, [%d] on an int and [%v]
    on a slice of errors.  The type of the formatting function is computed
    from the format string, so a call with operands that do not fit the
    verbs is not typable; a format outside the fragment has type [unit]. *)

Module gofmt.

Inductive verb : Type :=
| Lit (c : ascii)
| VerbS
| VerbD
| VerbV.

Fixpoint parse (format : string) : option (list verb) :=
  match format with
  | EmptyString => Some []
  | String c r =>
      if Ascii.eqb c "%" then
        match r with
        | EmptyString => None
        | String v r' =>
            if Ascii.eqb v "s" then cons VerbS <$> parse r'
            else if Ascii.eqb v "d" then cons VerbD <$> parse r'
            else if Ascii.eqb v "v" then cons VerbV <$> parse r'
            else if Ascii.eqb v "%" then cons (Lit "%") <$> parse r'
            else None
        end
      else cons (Lit c) <$> parse r
  end.

(** [%d] of an int: decimal digits, with a leading minus sign. *)
Definition formatInt (n : Z) : string :=
  NilZero.string_of_int (Z.to_int n).

Fixpoint joinSpace (l : list string) : string :=
  match l with
  | [] => ""
  | [s] => s
  | s :: rest => s +:+ " " +:+ joinSpace rest
  end.

(** [%v] of a [[]error]: the elements' [Error()] texts, separated by
    spaces, between square brackets. *)
Definition formatErrors (errs : list error) : string :=
  "[" +:+ joinSpace (Error <$> errs) +:+ "]".

Fixpoint operands (R : Type) (vs : list verb) : Type :=
  match vs with
  | [] => R
  | Lit _ :: vs' => operands R vs'
  | VerbS :: vs' => string -> operands R vs'
  | VerbD :: vs' => Z -> operands R vs'
  | VerbV :: vs' => list error -> operands R vs'
  end.

Fixpoint format_k {R : Type} (vs : list verb) (k : string -> R)
  : operands R vs :=
  match vs with
  | [] => k ""
  | Lit c :: vs' => format_k vs' (fun s => k (String c s))
  | VerbS :: vs' => fun a => format_k vs' (fun s => k (a +:+ s))
  | VerbD :: vs' => fun n => format_k vs' (fun s => k (formatInt n +:+ s))
  | VerbV :: vs' => fun es => format_k vs' (fun s => k (formatErrors es +:+ s))
  end.

Definition signature (R : Type) (format : string) : Type :=
  match parse format with
  | Some vs => operands R vs
  | None => unit
  end.

Definition formatted {R : Type} (k : string -> R) (format : string)
  : signature R format :=
  match parse format as p
        return (match p with Some vs => operands R vs | None => unit end)
  with
  | Some vs => format_k vs k
  | None => tt
  end.

Definition Sprintf (format : string) : signature string format :=
  formatted (fun s => s) format.

Definition Errorf (format : string) : signature error format :=
  formatted ErrorString format.

End gofmt.

(** ** The data of the package *)

(** [time.Duration]: a count of nanoseconds. *)
Definition Duration : Type := Z.
Definition Nanosecond : Duration := 1%Z.
Definition Second : Duration := (1000000000 * Nanosecond)%Z.
Definition Hour : Duration := (3600 * Second)%Z.

(** [url.Values], a [map[string][]string]. *)
Abbreviation Values := (gmap string (list string)).

(** [Values.Set]: the key is bound to the one-element slice. *)
Definition Values_Set (v : Values) (key value : string) : Values :=
  <[key := [value]]> v.

(** [*url.URL]. *)
Record URL : Type := mkURL { urlString : string }.

(** [*minio.Client]: the handle [minio.New] builds from its arguments. *)
Record Client : Type := mkClient {
  endpoint : string;
  accessKeyID : string;
  secretAccessKey : string;
  secure : bool
}.

(** [minio.ObjectInfo], with the two fields the package reads. *)
Record ObjectInfo : Type := mkObjectInfo {
  Key : string;
  Err : option error
}.

Record S3Service : Type := mkS3Service {
  s3Client : Client;
  lifeCycleRules : string;
  bucketName : string;
  urlValues : Values
}.

(** A request received by the store, as the client sends it. *)
Inductive Request : Type :=
| ReqBucketExists (bucket : string)
| ReqSetBucketLifecycle (bucket policy : string)
| ReqPutObject (bucket key data : string) (size : Z) (contentType : string)
| ReqPresignedGetObject (bucket key : string) (expiry : Duration)
                        (reqParams : Values)
| ReqListObjectsV2 (bucket prefix : string) (recursive : bool)
| ReqFGetObject (bucket key localPath : string).

(** The object store is an external collaborator: its answers are taken
    as given, one function per client call. *)
Record Store : Type := mkStore {
  minio_New : string -> string -> string -> bool -> Client + error;
  BucketExists : Client -> string -> bool * option error;
  SetBucketLifecycle : Client -> string -> string -> option error;
  PutObject : Client -> string -> string -> string -> Z -> string
              -> Z * option error;
  PresignedGetObject : Client -> string -> string -> Duration -> Values
                       -> option URL * option error;
  ListObjectsV2 : Client -> string -> string -> bool -> list ObjectInfo;
  FGetObject : Client -> string -> string -> string -> option error
}.

(** The world a method runs in: the [S3Service] its receiver points to and
    the requests sent so far (oldest first). *)
Record World : Type := mkWorld {
  svc : S3Service;
  log : list Request
}.

(** ** A state monad over the world *)

Definition M (A : Type) : Type := World -> A * World.

#[global] Instance M_ret : MRet M := fun A (a : A) w => (a, w).

#[global] Instance M_bind : MBind M :=
  fun A B (f : A -> M B) (m : M A) w => let (a, w') := m w in f a w'.

(** Reading a field through the receiver. *)
Definition field {A : Type} (proj : S3Service -> A) : M A :=
  fun w => (proj (svc w), w).

(** Sending a request to the store. *)
Definition send (r : Request) : M unit :=
  fun w => (tt, mkWorld (svc w) (log w ++ [r])).

Definition result {A : Type} (m : M A) (w : World) : A := fst (m w).
Definition after {A : Type} (m : M A) (w : World) : World := snd (m w).

(** The requests a call adds to the log. *)
Definition issued {A : Type} (m : M A) (w : World) : list Request :=
  drop (length (log w)) (log (after m w)).

(** ** The sequential facade *)

Section Facade.

Variable store : Store.

Definition NewS3Service (url accessKey accessSecret bucket : string)
  : option S3Service * option error :=
  match minio_New store url accessKey accessSecret true with
  | inr err => (None, Some err)
  | inl client =>
      match BucketExists store client bucket with
      | (_, Some err) => (None, Some err)
      | (false, None) =>
          (None,
           Some (gofmt.Errorf "s3 bucket (%s) doesn't exist" bucket))
      | (true, None) =>
          let urlValues := Values_Set ∅ "response-content-disposition" "inline" in
          (Some (mkS3Service client "" bucket urlValues), None)
      end
  end.

Definition AddLifeCycleRule (ruleID folderPath : string) (daysToExpiry : Z)
  : M (option error) :=
  let folderPath :=
    if negb (gostrings.HasSuffix folderPath "/")
    then folderPath +:+ "/" else folderPath in
  let lifeCycleString :=
    gofmt.Sprintf
      "<LifecycleConfiguration><Rule><ID>%s</ID><Prefix>%s</Prefix><Status>Enabled</Status><Expiration><Days>%d</Days></Expiration></Rule></LifecycleConfiguration>"
      ruleID folderPath daysToExpiry in
  c ← field s3Client;
  b ← field bucketName;
  _ ← send (ReqSetBucketLifecycle b lifeCycleString);
  mret (SetBucketLifecycle store c b lifeCycleString).

Definition UploadJSONFile (path data : string) : M (option error) :=
  c ← field s3Client;
  b ← field bucketName;
  _ ← send (ReqPutObject b path data (-1)%Z "application/json");
  let (_, err) := PutObject store c b path data (-1)%Z "application/json" in
  mret err.

Definition GetFileURL (path : string) (expiration : Duration)
  : M (option URL * option error) :=
  c ← field s3Client;
  b ← field bucketName;
  v ← field urlValues;
  _ ← send (ReqPresignedGetObject b path expiration v);
  mret (PresignedGetObject store c b path expiration v).

Definition UploadJSONFileWithLink (path data : string) (expiration : Duration)
  : M (option URL * option error) :=
  c ← field s3Client;
  b ← field bucketName;
  _ ← send (ReqPutObject b path data (-1)%Z "application/json");
  let (_, err) := PutObject store c b path data (-1)%Z "application/json" in
  match err with
  | Some e => mret (None, Some e)
  | None =>
      v ← field urlValues;
      _ ← send (ReqPresignedGetObject b path (24 * Hour)%Z v);
      mret (PresignedGetObject store c b path (24 * Hour)%Z v)
  end.

Definition DownloadFile (path localPath : string) : M (option error) :=
  c ← field s3Client;
  b ← field bucketName;
  _ ← send (ReqFGetObject b path localPath);
  mret (FGetObject store c b path localPath).

End Facade.

(** ** [DownloadDirectory]: the goroutines and what they share

    The calling goroutine ranges over the listing and starts one goroutine
    per entry without an error; a further goroutine waits for the
    [WaitGroup] and closes [errCh]; the caller then drains [errCh].  A
    send on the unbuffered [errCh] completes only together with a receive
    of the caller. *)

(** Where a goroutine of lines 106-120 stands. *)
Inductive wpc : Type :=
| WStart                (* started, body not yet run *)
| WSend (err : error)   (* at [errCh <- err], line 116 *)
| WFinish               (* before the [wg.Done()] of line 119 *)
| WDone.                (* returned *)

Record goroutine : Type := mkGoroutine {
  obj : ObjectInfo;     (* its argument *)
  pc : wpc
}.

(** Where the caller stands. *)
Inductive mpc : Type :=
| MRange (objectCh : list ObjectInfo)   (* [for obj := range objectCh] *)
| MDrain (errs : list error)            (* [for err := range errCh] *)
| MReturned (r : option error).

(** The goroutine of lines 123-126. *)
Inductive cpc : Type :=
| CNone     (* not started *)
| CWait     (* in [wg.Wait()] *)
| CDone.    (* [errCh] closed, returned *)

Record State : Type := mkState {
  world : World;
  main : mpc;
  workers : list goroutine;
  closer : cpc;
  wg : nat;
  errChClosed : bool;
  doneChClosed : bool;
  panicked : bool
}.

Inductive tid : Type :=
| Main
| Worker (i : nat)
| Closer.

Definition with_world (w : World) (σ : State) : State :=
  mkState w (main σ) (workers σ) (closer σ) (wg σ)
          (errChClosed σ) (doneChClosed σ) (panicked σ).

Definition with_main (m : mpc) (σ : State) : State :=
  mkState (world σ) m (workers σ) (closer σ) (wg σ)
          (errChClosed σ) (doneChClosed σ) (panicked σ).

Definition with_workers (ws : list goroutine) (σ : State) : State :=
  mkState (world σ) (main σ) ws (closer σ) (wg σ)
          (errChClosed σ) (doneChClosed σ) (panicked σ).

Definition with_closer (c : cpc) (σ : State) : State :=
  mkState (world σ) (main σ) (workers σ) c (wg σ)
          (errChClosed σ) (doneChClosed σ) (panicked σ).

Definition with_wg (n : nat) (σ : State) : State :=
  mkState (world σ) (main σ) (workers σ) (closer σ) n
          (errChClosed σ) (doneChClosed σ) (panicked σ).

Definition close_errCh (σ : State) : State :=
  mkState (world σ) (main σ) (workers σ) (closer σ) (wg σ)
          true (doneChClosed σ) (panicked σ).

Definition close_doneCh (σ : State) : State :=
  mkState (world σ) (main σ) (workers σ) (closer σ) (wg σ)
          (errChClosed σ) true (panicked σ).

Definition panic (σ : State) : State :=
  mkState (world σ) (main σ) (workers σ) (closer σ) (wg σ)
          (errChClosed σ) (doneChClosed σ) true.

(** [wg.Add(1)] *)
Definition wgAdd (σ : State) : State := with_wg (S (wg σ)) σ.

(** [wg.Done()]: a counter that would go below zero panics. *)
Definition wgDone (σ : State) : State :=
  match wg σ with
  | O => panic σ
  | S n => with_wg n σ
  end.

(** [go func(obj minio.ObjectInfo) {...}(obj)] *)
Definition spawn (o : ObjectInfo) (σ : State) : State :=
  with_workers (workers σ ++ [mkGoroutine o WStart]) σ.

Definition set_pc (i : nat) (g : goroutine) (p : wpc) (σ : State) : State :=
  with_workers (<[i := mkGoroutine (obj g) p]> (workers σ)) σ.

(** [return r], with the deferred [close(doneCh)]. *)
Definition return_ (r : option error) (σ : State) : State :=
  with_main (MReturned r) (close_doneCh σ).

Section DownloadDirectory.

Variable store : Store.
Variables path localPath : string.

(** Lines 112-114: the local file of a remote key. *)
Definition localFile (key : string) : string :=
  let fileName := gostrings.TrimPrefix key (path +:+ "/") in
  localPath +:+ "/" +:+ fileName.

(** Lines 91-97. *)
Definition DownloadDirectory_init (w : World) : State :=
  let '(objectCh, w') :=
    (c ← field s3Client;
     b ← field bucketName;
     _ ← send (ReqListObjectsV2 b path true);
     mret (ListObjectsV2 store c b path true)) w in
  mkState w' (MRange objectCh) [] CNone 0 false false false.

(** One step of the goroutine [t], when it can take one. *)
Definition step (t : tid) (σ : State) : option State :=
  if panicked σ then None else
  match t with
  | Main =>
      match main σ with
      | MRange [] =>
          Some (with_main (MDrain []) (with_closer CWait σ))
      | MRange (o :: rest) =>
          match Err o with
          | Some e => Some (return_ (Some e) σ)
          | None => Some (with_main (MRange rest) (spawn o (wgAdd σ)))
          end
      | MDrain errs =>
          if errChClosed σ then
            if (0 <? length errs)%nat then
              Some (return_
                      (Some (gofmt.Errorf
                               "failed to download files from s3: %v" errs))
                      σ)
            else Some (return_ None σ)
          else None
      | MReturned _ => None
      end
  | Worker i =>
      match workers σ !! i with
      | None => None
      | Some g =>
          match pc g with
          | WStart =>
              if gostrings.HasSuffix (Key (obj g)) "/" then
                Some (set_pc i g WDone (wgDone σ))
              else
                let (err, w') :=
                  DownloadFile store (Key (obj g)) (localFile (Key (obj g)))
                               (world σ) in
                match err with
                | Some e => Some (set_pc i g (WSend e) (with_world w' σ))
                | None => Some (set_pc i g WFinish (with_world w' σ))
                end
          | WSend e =>
              if errChClosed σ then Some (panic σ) else
              match main σ with
              | MDrain errs =>
                  Some (set_pc i g WFinish
                          (with_main (MDrain (errs ++ [e])) σ))
              | _ => None
              end
          | WFinish => Some (set_pc i g WDone (wgDone σ))
          | WDone => None
          end
      end
  | Closer =>
      match closer σ with
      | CWait =>
          if (wg σ =? 0)%nat
          then Some (with_closer CDone (close_errCh σ))
          else None
      | _ => None
      end
  end.

(** The interleaving semantics: some goroutine takes a step. *)
Definition steps : relation State :=
  fun σ σ' => exists t, step t σ = Some σ'.

(** Running a schedule; a goroutine that cannot move is passed over. *)
Fixpoint run (sched : list tid) (σ : State) : State :=
  match sched with
  | [] => σ
  | t :: sched' =>
      match step t σ with
      | Some σ' => run sched' σ'
      | None => run sched' σ
      end
  end.

(** What the caller receives in the step of [t]: the error of a goroutine
    that stands at its send while the caller drains the open [errCh]. *)
Definition handed_over (t : tid) (σ : State) : list error :=
  match t, main σ with
  | Worker i, MDrain _ =>
      match workers σ !! i with
      | Some g =>
          match pc g with
          | WSend e => if errChClosed σ then [] else [e]
          | _ => []
          end
      | None => []
      end
  | _, _ => []
  end.

(** The errors handed over along a schedule, in the order of receipt. *)
Fixpoint receipts (sched : list tid) (σ : State) : list error :=
  match sched with
  | [] => []
  | t :: sched' =>
      match step t σ with
      | Some σ' => handed_over t σ ++ receipts sched' σ'
      | None => receipts sched' σ
      end
  end.

(** The call under the schedule [sched]: the value the caller has returned
    by the end of the schedule, if it has, and the world then. *)
Definition DownloadDirectory (sched : list tid) : M (option (option error)) :=
  fun w =>
    let σ := run sched (DownloadDirectory_init w) in
    (match main σ with MReturned r => Some r | _ => None end, world σ).

(** No goroutine can move. *)
Definition quiescent (σ : State) : bool :=
  bool_decide (step Main σ = None)
  && bool_decide (step Closer σ = None)
  && forallb (fun i => bool_decide (step (Worker i) σ = None))
             (seq 0 (length (workers σ))).

(** What a call of [DownloadDirectory] can reach from the world [w]. *)
Definition reachable (w : World) (σ : State) : Prop :=
  rtc steps (DownloadDirectory_init w) σ.

(** The listing the call ranges over. *)
Definition listing (w : World) : list ObjectInfo :=
  ListObjectsV2 store (s3Client (svc w)) (bucketName (svc w)) path true.

(** What the goroutine started for [o] asks of the store, and what it
    then has to report. *)
Definition download_of (s : S3Service) (o : ObjectInfo) : option Request :=
  if gostrings.HasSuffix (Key o) "/" then None
  else Some (ReqFGetObject (bucketName s) (Key o) (localFile (Key o))).

Definition failure_of (s : S3Service) (o : ObjectInfo) : option error :=
  if gostrings.HasSuffix (Key o) "/" then None
  else FGetObject store (s3Client s) (bucketName s) (Key o)
                  (localFile (Key o)).

(** The requests of the call so far, after the listing request. *)
Definition downloads (w : World) (σ : State) : list Request :=
  drop (S (length (log w))) (log (world σ)).

End DownloadDirectory.

(** ** Vocabulary of the properties *)

Definition done (p : wpc) : bool :=
  match p with WDone => true | _ => false end.

(** Past the send of line 116 (or never bound for it). *)
Definition past_send (p : wpc) : bool :=
  match p with WFinish | WDone => true | _ => false end.

Definition started (p : wpc) : bool :=
  match p with WStart => false | _ => true end.

(** Goroutines the [WaitGroup] still waits for. *)
Definition pending (ws : list goroutine) : nat :=
  sum_list_with (fun g => if done (pc g) then 0 else 1) ws.

(** An upper bound on the steps a state still has in it. *)
Definition weight_pc (p : wpc) : nat :=
  match p with WStart => 3 | WSend _ => 2 | WFinish => 1 | WDone => 0 end.

Definition weight_main (m : mpc) : nat :=
  match m with
  | MRange rest => 4 * length rest + 3
  | MDrain _ => 1
  | MReturned _ => 0
  end.

Definition weight_closer (c : cpc) : nat :=
  match c with CWait => 1 | _ => 0 end.

Definition weight (σ : State) : nat :=
  if panicked σ then 0
  else (1 + weight_main (main σ)
        + sum_list_with (fun g => weight_pc (pc g)) (workers σ)
        + weight_closer (closer σ)).

(** The aggregate error of the specification: success for no failure,
    and otherwise one error whose text lists the texts of all the
    failures, in their order, separated by spaces. *)
Definition aggregate (errs : list error) : option error :=
  match errs with
  | [] => None
  | _ :: _ =>
      Some (ErrorString
              ("failed to download files from s3: ["
               +:+ String.concat " " (Error <$> errs) +:+ "]"))
  end.

(** The text [part] occurs in [text]. *)
Definition mentions (text part : string) : Prop :=
  exists before after, text = before +:+ part +:+ after.

(** The error [r] mentions the text of [e]. *)
Definition reports (r : option error) (e : error) : Prop :=
  exists err, r = Some err /\ mentions (Error err) (Error e).

Definition is_marker (o : ObjectInfo) : bool :=
  gostrings.HasSuffix (Key o) "/".

Definition no_error (o : ObjectInfo) : Prop := Err o = None.

(** The descriptor a listing yields for the object at [key]. *)
Definition object (key : string) : ObjectInfo := mkObjectInfo key None.

Section Properties.

Variable store : Store.
Variables path localPath : string.
Variable w : World.

(** The error a goroutine has handed over, the request it has sent. *)
Definition reported (g : goroutine) : option error :=
  if past_send (pc g) then failure_of store path localPath (svc w) (obj g)
  else None.

Definition requested (g : goroutine) : option Request :=
  if started (pc g) then download_of path localPath (svc w) (obj g)
  else None.

(** The two ways the call returns. *)
Definition enumeration_exit (σ : State) (r : option error) : Prop :=
  exists pre o e post,
    listing store path w = pre ++ o :: post
    /\ Err o = Some e
    /\ obj <$> workers σ = pre
    /\ r = Some e
    /\ closer σ = CNone
    /\ errChClosed σ = false
    /\ omap reported (workers σ) = [].

Definition drained_exit (σ : State) (r : option error) : Prop :=
  obj <$> workers σ = listing store path w
  /\ closer σ = CDone
  /\ errChClosed σ = true
  /\ pending (workers σ) = 0
  /\ exists errs,
       errs ≡ₚ omap (failure_of store path localPath (svc w))
                    (listing store path w)
       /\ r = aggregate errs.

(** The invariant of the interleaving semantics. *)
Record consistent (σ : State) : Prop := mkConsistent {
  c_panicked : panicked σ = false;
  c_svc : svc (world σ) = svc w;
  c_wg : wg σ = pending (workers σ);
  c_noerr : Forall (fun g => no_error (obj g)) (workers σ);
  c_send : forall g e, g ∈ workers σ -> pc g = WSend e ->
             failure_of store path localPath (svc w) (obj g) = Some e;
  c_log : exists ds,
            log (world σ)
            = log w ++ ReqListObjectsV2 (bucketName (svc w)) path true :: ds
            /\ ds ≡ₚ omap requested (workers σ);
  c_main :
    match main σ with
    | MRange rest =>
        (obj <$> workers σ) ++ rest = listing store path w
        /\ closer σ = CNone
        /\ errChClosed σ = false
        /\ doneChClosed σ = false
        /\ omap reported (workers σ) = []
    | MDrain errs =>
        obj <$> workers σ = listing store path w
        /\ doneChClosed σ = false
        /\ errs ≡ₚ omap reported (workers σ)
        /\ (if errChClosed σ
            then closer σ = CDone /\ pending (workers σ) = 0
            else closer σ = CWait)
    | MReturned r =>
        doneChClosed σ = true
        /\ (enumeration_exit σ r \/ drained_exit σ r)
    end
}.

(** Total correctness of the call: every interleaving is finite, it
    ends only after the caller has returned, and whenever the caller has
    returned [r] in the state [σ], [Q r σ] holds. *)
Definition returns_with (Q : option error -> State -> Prop) : Prop :=
  forall σ, reachable store path localPath w σ ->
    sn (steps store path localPath) σ
    /\ (nf (steps store path localPath) σ -> exists r, main σ = MReturned r)
    /\ (forall r, main σ = MReturned r -> Q r σ).

End Properties.

(** ** The statements of the specification *)

Section Statements.

Variable store : Store.
Variables path localPath : string.
Variable w : World.

(** The error of a goroutine whose download has run and failed. *)
Definition failed (g : goroutine) : option error :=
  if started (pc g) then failure_of store path localPath (svc w) (obj g)
  else None.

Definition download_failures (σ : State) : list error :=
  omap failed (workers σ).

(** The result is success exactly when no download has failed, and
    otherwise the aggregate of all the failures. *)
Definition aggregates_failures (r : option error) (σ : State) : Prop :=
  (r = None <-> download_failures σ = [])
  /\ exists errs, errs ≡ₚ download_failures σ /\ r = aggregate errs.

(** No goroutine is ever started for a pseudo-directory marker. *)
Definition no_worker_for_marker : Prop :=
  forall σ, reachable store path localPath w σ ->
    Forall (fun g => is_marker (obj g) = false) (workers σ).




(** A request to download a key that is no pseudo-directory marker. *)
Definition downloads_file (r : Request) : Prop :=
  exists bucket key dest,
    r = ReqFGetObject bucket key dest
    /\ gostrings.HasSuffix key "/" = false.

End Statements.








(** A request for a presigned URL asks for the expiry [d]. *)
Definition presigned_for (d : Duration) (r : Request) : Prop :=
  match r with
  | ReqPresignedGetObject _ _ expiry _ => expiry = d
  | _ => True
  end.

(** ** Concrete stores for the scenarios *)

Definition demo_client : Client := mkClient "play.min.io" "key" "secret" true.

Definition demo_service : S3Service :=
  mkS3Service demo_client "" "bucket"
              (Values_Set ∅ "response-content-disposition" "inline").

Definition demo_world : World := mkWorld demo_service [].

(** A store that lists [objects] and answers a download by its key. *)
Definition demo_store (objects : list ObjectInfo)
           (fget : string -> option error) : Store :=
  mkStore (fun ep ak sk sec => inl (mkClient ep ak sk sec))
          (fun _ _ => (true, None))
          (fun _ _ _ => None)
          (fun _ _ _ _ _ _ => (0%Z, None))
          (fun _ _ key _ _ => (Some (mkURL ("https://play.min.io/" +:+ key)), None))
          (fun _ _ _ _ => objects)
          (fun _ _ key _ => fget key).

(** The scenario of the specification: a marker and two files. *)
Definition reports_listing : list ObjectInfo :=
  [mkObjectInfo "reports/2024/" None;
   mkObjectInfo "reports/2024/a.json" None;
   mkObjectInfo "reports/2024/b.json" None].

Definition reports_store : Store := demo_store reports_listing (fun _ => None).

Definition reports_expected (r : option error) (σ : State) : Prop :=
  r = None
  /\ downloads demo_world σ
     ≡ₚ [ReqFGetObject "bucket" "reports/2024/a.json" "/tmp/out/a.json";
         ReqFGetObject "bucket" "reports/2024/b.json" "/tmp/out/b.json"].

(** A listing that breaks off after one object whose download fails. *)
Definition listing_error : error := StoreError "listing interrupted".
Definition download_error : error := StoreError "connection reset".

Definition broken_listing : list ObjectInfo :=
  [mkObjectInfo "d/k" None; mkObjectInfo "" (Some listing_error)].

Definition broken_store : Store :=
  demo_store broken_listing (fun _ => Some download_error).

(** The same objects, with a store that fails to fetch [b.json]. *)
Definition flaky_store : Store :=
  demo_store reports_listing
             (fun key => if String.eqb key "reports/2024/b.json"
                         then Some download_error else None).

(** A store that cannot be reached, and one without the bucket. *)
Definition offline_store : Store :=
  mkStore (fun _ _ _ _ => inr (StoreError "dial tcp: connection refused"))
          (fun _ _ => (true, None))
          (fun _ _ _ => None)
          (fun _ _ _ _ _ _ => (0%Z, None))
          (fun _ _ _ _ _ => (None, None))
          (fun _ _ _ _ => [])
          (fun _ _ _ _ => None).

Definition bucketless_store : Store :=
  mkStore (fun ep ak sk sec => inl (mkClient ep ak sk sec))
          (fun _ _ => (false, None))
          (fun _ _ _ => None)
          (fun _ _ _ _ _ _ => (0%Z, None))
          (fun _ _ _ _ _ => (None, None))
          (fun _ _ _ _ => [])
          (fun _ _ _ _ => None).

(** Two objects, neither of which can be fetched. *)
Definition unfetchable_store : Store :=
  demo_store [object "d/a"; object "d/b"]
             (fun key => Some (StoreError ("cannot fetch " +:+ key))).

(** A prefix that holds nothing but a marker. *)
Definition marker_store : Store :=
  demo_store [mkObjectInfo "d/" None] (fun _ => None).

(** * Properties *)

(** ** Facts about the string functions *)

#[local] Arguments String.append !s1 s2 : simpl nomatch.

Section StringFacts.

Import gostrings.

Lemma string_length_app (s1 s2 : string) :
  String.length (s1 +:+ s2) = String.length s1 + String.length s2.
Proof. induction s1 as [|c s1 IH]; simpl; [done | by rewrite IH]. Qed.

Lemma app_empty_r (s : string) : s +:+ "" = s.
Proof. induction s as [|c s IH]; simpl; [done | by rewrite IH]. Qed.

Lemma app_assoc_s (s1 s2 s3 : string) :
  (s1 +:+ s2) +:+ s3 = s1 +:+ (s2 +:+ s3).
Proof. induction s1 as [|c s1 IH]; simpl; [done | by rewrite IH]. Qed.

Lemma substring_all (s : string) : substring 0 (String.length s) s = s.
Proof. induction s as [|c s IH]; simpl; [done | by rewrite IH]. Qed.

Lemma substring_app_l (p r : string) :
  substring 0 (String.length p) (p +:+ r) = p.
Proof.
  induction p as [|c p IH]; simpl.
  - by destruct r.
  - by rewrite IH.
Qed.

Lemma substring_app_r (p r : string) :
  substring (String.length p) (String.length r) (p +:+ r) = r.
Proof.
  induction p as [|c p IH]; simpl; [apply substring_all | done].
Qed.

Lemma substring_split (s : string) (n : nat) :
  n <= String.length s ->
  substring 0 n s +:+ substring n (String.length s - n) s = s.
Proof.
  revert n. induction s as [|c s IH]; intros [|n] Hn; simpl in *;
    try done; try lia.
  - by rewrite substring_all.
  - f_equal. apply IH. lia.
Qed.

Lemma HasPrefix_true (s p : string) :
  HasPrefix s p = true <-> exists r, s = p +:+ r.
Proof.
  unfold HasPrefix. rewrite andb_true_iff, Nat.leb_le, String.eqb_eq.
  split.
  - intros [Hlen Hsub]. exists (substring (String.length p)
                                  (String.length s - String.length p) s).
    rewrite <- Hsub at 1. symmetry. by apply substring_split.
  - intros [r ->]. rewrite string_length_app, substring_app_l. split; [lia | done].
Qed.

Lemma HasSuffix_true (s x : string) :
  HasSuffix s x = true <-> exists r, s = r +:+ x.
Proof.
  unfold HasSuffix. rewrite andb_true_iff, Nat.leb_le, String.eqb_eq.
  split.
  - intros [Hlen Hsub].
    exists (substring 0 (String.length s - String.length x) s).
    pose proof (substring_split s (String.length s - String.length x)) as H.
    replace (String.length s - (String.length s - String.length x))
      with (String.length x) in H by lia.
    rewrite Hsub in H. symmetry. apply H. lia.
  - intros [r ->]. rewrite string_length_app.
    replace (String.length r + String.length x - String.length x)
      with (String.length r) by lia.
    rewrite substring_app_r. split; [lia | done].
Qed.

Lemma TrimPrefix_app (p r : string) : TrimPrefix (p +:+ r) p = r.
Proof.
  unfold TrimPrefix.
  assert (HasPrefix (p +:+ r) p = true) as -> by (apply HasPrefix_true; eauto).
  rewrite string_length_app.
  replace (String.length p + String.length r - String.length p)
    with (String.length r) by lia.
  apply substring_app_r.
Qed.

Lemma TrimPrefix_other (s p : string) :
  HasPrefix s p = false -> TrimPrefix s p = s.
Proof. unfold TrimPrefix. by intros ->. Qed.

(** The derivation of line 112-114 on a key under [path/]. *)
Lemma localFile_under (path localPath rest : string) :
  localFile path localPath (path +:+ "/" +:+ rest)
  = localPath +:+ "/" +:+ rest.
Proof.
  unfold localFile.
  by rewrite <- (app_assoc_s path "/" rest), TrimPrefix_app.
Qed.


End StringFacts.

(** ** Facts about lists updated in place *)

Section ListFacts.

Context {A B : Type}.

Lemma sum_list_with_insert (f : A -> nat) (l : list A) (i : nat) (x y : A) :
  l !! i = Some x ->
  sum_list_with f (<[i:=y]> l) + f x = sum_list_with f l + f y.
Proof.
  revert i. induction l as [|a l IH]; intros [|i] Hi; simplify_eq/=.
  - lia.
  - specialize (IH _ Hi). lia.
Qed.

Lemma sum_list_with_zero (f : A -> nat) (l : list A) :
  sum_list_with f l = 0 -> Forall (fun x => f x = 0) l.
Proof.
  induction l as [|a l IH]; simpl; intros H; constructor.
  - lia.
  - apply IH. lia.
Qed.

Lemma sum_list_with_pos (f : A -> nat) (l : list A) :
  0 < sum_list_with f l -> exists i x, l !! i = Some x /\ 0 < f x.
Proof.
  induction l as [|a l IH]; simpl; intros H; [lia|].
  destruct (decide (0 < f a)) as [Ha|Ha].
  - by exists 0, a.
  - destruct IH as (i & x & Hi & Hx); [lia|]. by exists (S i), x.
Qed.

Lemma omap_insert_same (f : A -> option B) (l : list A) (i : nat) (x y : A) :
  l !! i = Some x -> f y = f x -> omap f (<[i:=y]> l) = omap f l.
Proof.
  revert i. induction l as [|a l IH]; intros [|i] Hi Hf; simplify_eq/=.
  - by rewrite Hf.
  - by rewrite (IH _ Hi Hf).
Qed.

Lemma omap_insert_new (f : A -> option B) (l : list A) (i : nat)
      (x y : A) (b : B) :
  l !! i = Some x -> f x = None -> f y = Some b ->
  omap f (<[i:=y]> l) ≡ₚ b :: omap f l.
Proof.
  revert i. induction l as [|a l IH]; intros [|i] Hi Hx Hy; simplify_eq/=.
  - by rewrite Hx, Hy.
  - specialize (IH _ Hi Hx Hy). destruct (f a).
    + rewrite IH. apply Permutation_swap.
    + done.
Qed.

Lemma fmap_insert_same (f : A -> B) (l : list A) (i : nat) (x y : A) :
  l !! i = Some x -> f y = f x -> f <$> <[i:=y]> l = f <$> l.
Proof.
  intros Hi Hf. rewrite list_fmap_insert, Hf.
  apply list_insert_id. by rewrite list_lookup_fmap, Hi.
Qed.

Lemma Forall_insert_same (P : A -> Prop) (l : list A) (i : nat) (y : A) :
  Forall P l -> P y -> Forall P (<[i:=y]> l).
Proof.
  intros Hl Hy. apply Forall_forall. intros z Hz.
  apply list_elem_of_lookup in Hz as [j Hj].
  destruct (decide (i = j)) as [->|Hne].
  - destruct (decide (j < length l)).
    + rewrite list_lookup_insert_eq in Hj by done. by simplify_eq.
    + rewrite list_insert_ge in Hj by lia.
      eapply Forall_lookup_1 in Hl; eauto.
  - rewrite list_lookup_insert_ne in Hj by done.
    eapply Forall_lookup_1 in Hl; eauto.
Qed.

End ListFacts.

(** ** The interleaving semantics terminates *)

Section Termination.

Variable store : Store.
Variables path localPath : string.

Lemma weight_set_pc (σ : State) (i : nat) (g : goroutine) (p : wpc) :
  panicked σ = false ->
  workers σ !! i = Some g ->
  weight (set_pc i g p σ) + weight_pc (pc g) = weight σ + weight_pc p.
Proof.
  intros Hp Hg. unfold weight. simpl. rewrite Hp.
  pose proof (sum_list_with_insert (fun g => weight_pc (pc g)) _ _ _
                (mkGoroutine (obj g) p) Hg) as H.
  simpl in H. lia.
Qed.

Lemma step_weight (t : tid) (σ σ' : State) :
  step store path localPath t σ = Some σ' -> weight σ' < weight σ.
Proof.
  unfold step. destruct (panicked σ) eqn:Hp; [done|].
  destruct t as [|i|].
  - destruct (main σ) as [[|o rest]|errs|r] eqn:Hm; try done.
    + intros [= <-]. unfold weight. simpl. rewrite Hp, Hm. simpl. lia.
    + destruct (Err o); intros [= <-]; unfold weight; simpl;
        rewrite Hp, Hm; simpl; [lia|].
      rewrite sum_list_with_app. simpl. lia.
    + destruct (errChClosed σ); [|done].
      destruct (0 <? length errs)%nat; intros [= <-];
        unfold weight; simpl; rewrite Hp, Hm; simpl; lia.
  - destruct (workers σ !! i) as [g|] eqn:Hg; [|done].
    destruct (pc g) as [|e| |] eqn:Hpc; try done.
    + destruct (gostrings.HasSuffix (Key (obj g)) "/").
      * intros [= <-]. unfold wgDone. destruct (wg σ).
        -- unfold weight at 1. simpl. unfold weight. rewrite Hp. lia.
        -- pose proof (weight_set_pc (with_wg n σ) i g WDone Hp Hg) as H.
           rewrite Hpc in H. simpl in H.
           assert (weight (with_wg n σ) = weight σ) as Hw by done. lia.
      * destruct (DownloadFile _ _ _ _) as [[e|] w'] eqn:Hd;
          intros [= <-].
        -- pose proof (weight_set_pc (with_world w' σ) i g (WSend e) Hp Hg) as H.
           rewrite Hpc in H. simpl in H.
           assert (weight (with_world w' σ) = weight σ) as Hw by done. lia.
        -- pose proof (weight_set_pc (with_world w' σ) i g WFinish Hp Hg) as H.
           rewrite Hpc in H. simpl in H.
           assert (weight (with_world w' σ) = weight σ) as Hw by done. lia.
    + destruct (errChClosed σ).
      * intros [= <-]. unfold weight at 1. simpl. unfold weight.
        rewrite Hp. lia.
      * destruct (main σ) as [|errs|] eqn:Hm; try done. intros [= <-].
        pose proof (weight_set_pc (with_main (MDrain (errs ++ [e])) σ)
                      i g WFinish Hp Hg) as H.
        rewrite Hpc in H. simpl in H.
        assert (weight (with_main (MDrain (errs ++ [e])) σ) = weight σ)
          as Hw by (unfold weight; simpl; by rewrite Hm).
        lia.
    + intros [= <-]. unfold wgDone. destruct (wg σ).
      * unfold weight at 1. simpl. unfold weight. rewrite Hp. lia.
      * pose proof (weight_set_pc (with_wg n σ) i g WDone Hp Hg) as H.
        rewrite Hpc in H. simpl in H.
        assert (weight (with_wg n σ) = weight σ) as Hw by done. lia.
  - destruct (closer σ) eqn:Hc; try done.
    destruct (wg σ =? 0)%nat; [|done]. intros [= <-].
    unfold weight. simpl. rewrite Hp, Hc. simpl. lia.
Qed.

Lemma steps_sn (σ : State) : sn (steps store path localPath) σ.
Proof.
  induction (Wf_nat.well_founded_ltof _ weight σ) as [σ _ IH].
  constructor. intros σ' [t Ht]. apply IH. by eapply step_weight.
Qed.

End Termination.

(** ** The invariant holds in every reachable state *)

Lemma joinSpace_concat (l : list string) :
  gofmt.joinSpace l = String.concat " " l.
Proof.
  induction l as [|s l IH]; [done|]. simpl. destruct l; [done|].
  by rewrite IH.
Qed.

Lemma Errorf_aggregate (errs : list error) (σ : State) :
  (if (0 <? length errs)%nat
   then Some (return_
                (Some (gofmt.Errorf "failed to download files from s3: %v" errs))
                σ)
   else Some (return_ None σ))
  = Some (return_ (aggregate errs) σ).
Proof.
  destruct errs as [|e errs]; [done|].
  unfold aggregate. simpl. do 3 f_equal.
  unfold gofmt.Errorf, gofmt.formatted. simpl. unfold gofmt.formatErrors.
  by rewrite app_empty_r, joinSpace_concat.
Qed.

Lemma elem_of_insert_inv {A : Type} (l : list A) (i : nat) (x y : A) :
  x ∈ <[i:=y]> l -> x = y \/ x ∈ l.
Proof.
  intros Hx. apply list_elem_of_lookup in Hx as [j Hj].
  destruct (decide (i = j)) as [->|Hne].
  - destruct (decide (j < length l)).
    + rewrite list_lookup_insert_eq in Hj by done. left. by simplify_eq.
    + rewrite list_insert_ge in Hj by lia. right.
      by eapply list_elem_of_lookup_2.
  - rewrite list_lookup_insert_ne in Hj by done. right.
    by eapply list_elem_of_lookup_2.
Qed.

Lemma pending_lookup (ws : list goroutine) (i : nat) (g : goroutine) :
  ws !! i = Some g -> done (pc g) = false -> 0 < pending ws.
Proof.
  revert i. induction ws as [|a ws IH]; intros [|i] Hi Hd; simplify_eq/=.
  - unfold pending. simpl. rewrite Hd. lia.
  - specialize (IH _ Hi Hd). unfold pending in *. simpl. lia.
Qed.

Lemma pending_set_pc (ws : list goroutine) (i : nat) (g : goroutine) (p : wpc) :
  ws !! i = Some g ->
  pending (<[i := mkGoroutine (obj g) p]> ws) + (if done (pc g) then 0 else 1)
  = pending ws + (if done p then 0 else 1).
Proof.
  intros Hi. unfold pending.
  apply (sum_list_with_insert (fun g => if done (pc g) then 0 else 1)
           _ _ _ (mkGoroutine (obj g) p) Hi).
Qed.

Section Invariant.

Variable store : Store.
Variables path localPath : string.
Variable w : World.

Lemma reported_all_done (ws : list goroutine) :
  pending ws = 0 ->
  omap (reported store path localPath w) ws
  = omap (failure_of store path localPath (svc w)) (obj <$> ws).
Proof.
  intros H. apply sum_list_with_zero in H.
  induction H as [|g ws Hg _ IH]; [done|]. simpl.
  unfold reported at 1. destruct (pc g); simplify_eq/=; by rewrite IH.
Qed.

Lemma consistent_init :
  consistent store path localPath w (DownloadDirectory_init store path w).
Proof.
  constructor; simpl; try done.
  - intros g e Hg. by apply elem_of_nil in Hg.
  - exists []. split; [|done]. done.
Qed.

Lemma consistent_step_main (σ σ' : State) :
  consistent store path localPath w σ ->
  step store path localPath Main σ = Some σ' ->
  consistent store path localPath w σ'.
Proof.
  intros [Hp Hsvc Hwg Hne Hsend Hlog Hmain] Hstep.
  destruct σ as [wd m ws c n ec dc p]; simpl in *. subst p.
  unfold step in Hstep;
    cbn [world main workers closer wg errChClosed doneChClosed panicked]
      in Hstep.
  destruct m as [[|o rest]|errs|r]; try done.
  - (* the listing is exhausted *)
    injection Hstep as <-.
    destruct Hmain as (HL & -> & -> & -> & Hrep).
    rewrite app_nil_r in HL.
    constructor; simpl; try done. by rewrite Hrep.
  - destruct (Err o) as [e|] eqn:He; injection Hstep as <-.
    + (* the entry reports an error *)
      destruct Hmain as (HL & -> & -> & -> & Hrep).
      constructor; simpl; try done.
      split; [done|]. left. exists (obj <$> ws), o, e, rest. by simpl.
    + (* a goroutine is started for the entry *)
      destruct Hmain as (HL & -> & -> & -> & Hrep).
      constructor; simpl; try done.
      * unfold pending in *. rewrite sum_list_with_app. simpl. lia.
      * apply Forall_app. split; [done|]. by constructor.
      * intros g e Hg Hpc. apply elem_of_app in Hg as [Hg|Hg]; [eauto|].
        apply list_elem_of_singleton in Hg. by subst g.
      * destruct Hlog as (ds & Hlog & Hds). exists ds. split; [done|].
        rewrite omap_app. simpl. by rewrite app_nil_r.
      * rewrite fmap_app, omap_app, Hrep. simpl.
        by rewrite <- app_assoc.
  - (* the channel is closed: return *)
    destruct ec; [|done]. rewrite Errorf_aggregate in Hstep.
    injection Hstep as <-.
    destruct Hmain as (HL & -> & Herrs & -> & Hpend).
    constructor; simpl; try done.
    split; [done|]. right. repeat split; try done.
    exists errs. split; [|done].
    by rewrite Herrs, reported_all_done, HL.
Qed.

Lemma consistent_step_closer (σ σ' : State) :
  consistent store path localPath w σ ->
  step store path localPath Closer σ = Some σ' ->
  consistent store path localPath w σ'.
Proof.
  intros [Hp Hsvc Hwg Hne Hsend Hlog Hmain] Hstep.
  destruct σ as [wd m ws c n ec dc p]; simpl in *. subst p.
  unfold step in Hstep;
    cbn [world main workers closer wg errChClosed doneChClosed panicked]
      in Hstep.
  destruct c; try done.
  destruct (n =? 0)%nat eqn:Hn; [|done].
  apply Nat.eqb_eq in Hn. injection Hstep as <-.
  destruct m as [rest|errs|r].
  - by destruct Hmain as (_ & ? & _).
  - destruct Hmain as (HL & Hdc & Herrs & Hec).
    destruct ec; [by destruct Hec|].
    constructor; simpl; try done.
    repeat split; try done. congruence.
  - destruct Hmain as (_ & [(? & ? & ? & ? & _ & _ & _ & _ & ? & _)
                           |(_ & ? & _)]); done.
Qed.

(** A goroutine moves on without touching the [WaitGroup] or [errCh]. *)
Lemma consistent_move (σ : State) (i : nat) (g : goroutine) (p : wpc)
      (wd : World) :
  consistent store path localPath w σ ->
  workers σ !! i = Some g ->
  done p = false -> done (pc g) = false ->
  (forall e, p = WSend e ->
             failure_of store path localPath (svc w) (obj g) = Some e) ->
  reported store path localPath w (mkGoroutine (obj g) p)
  = reported store path localPath w g ->
  svc wd = svc w ->
  (exists ds,
      log wd = log w ++ ReqListObjectsV2 (bucketName (svc w)) path true :: ds
      /\ ds ≡ₚ omap (requested path localPath w)
                    (<[i := mkGoroutine (obj g) p]> (workers σ))) ->
  consistent store path localPath w (set_pc i g p (with_world wd σ)).
Proof.
  intros [Hp Hsvc Hwg Hne Hsend Hlog Hmain] Hi Hdp Hdg Hfail Hrep Hsvc' Hlog'.
  pose proof (pending_set_pc _ _ _ p Hi) as Hpend.
  rewrite Hdp, Hdg in Hpend.
  assert (pending (<[i:={| obj := obj g; pc := p |}]> (workers σ))
          = pending (workers σ)) as Hpend' by lia.
  assert (obj <$> <[i:={| obj := obj g; pc := p |}]> (workers σ)
          = obj <$> workers σ) as Hobj by by eapply fmap_insert_same.
  assert (omap (reported store path localPath w)
               (<[i:={| obj := obj g; pc := p |}]> (workers σ))
          = omap (reported store path localPath w) (workers σ)) as Homap
    by by eapply omap_insert_same.
  constructor; simpl; try done.
  - congruence.
  - apply Forall_insert_same; [done|]. simpl.
    eapply Forall_lookup_1 in Hne; eauto.
  - intros g' e Hg' Hpc. apply elem_of_insert_inv in Hg' as [->|Hg'].
    + by apply Hfail.
    + eauto.
  - unfold enumeration_exit, drained_exit in *. simpl.
    destruct (main σ) as [rest|errs|r];
      rewrite ?Hobj, ?Homap, ?Hpend'; done.
Qed.

(** A goroutine calls [wg.Done()] and returns. *)
Lemma consistent_finish (σ : State) (i : nat) (g : goroutine) :
  consistent store path localPath w σ ->
  workers σ !! i = Some g ->
  done (pc g) = false ->
  reported store path localPath w (mkGoroutine (obj g) WDone)
  = reported store path localPath w g ->
  requested path localPath w (mkGoroutine (obj g) WDone)
  = requested path localPath w g ->
  consistent store path localPath w (set_pc i g WDone (wgDone σ)).
Proof.
  intros [Hp Hsvc Hwg Hne Hsend Hlog Hmain] Hi Hdg Hrep Hreq.
  pose proof (pending_set_pc _ _ _ WDone Hi) as Hpend.
  rewrite Hdg in Hpend. simpl in Hpend.
  assert (obj <$> <[i:={| obj := obj g; pc := WDone |}]> (workers σ)
          = obj <$> workers σ) as Hobj by by eapply fmap_insert_same.
  assert (omap (reported store path localPath w)
               (<[i:={| obj := obj g; pc := WDone |}]> (workers σ))
          = omap (reported store path localPath w) (workers σ)) as Homap
    by by eapply omap_insert_same.
  unfold wgDone. destruct (wg σ) as [|n] eqn:Hn; [lia|].
  constructor; simpl; try done.
  - lia.
  - apply Forall_insert_same; [done|]. simpl.
    eapply Forall_lookup_1 in Hne; eauto.
  - intros g' e Hg' Hpc. apply elem_of_insert_inv in Hg' as [->|Hg'];
      [done | eauto].
  - destruct Hlog as (ds & Hlog & Hds). exists ds. split; [done|].
    by erewrite omap_insert_same.
  - unfold enumeration_exit, drained_exit in *. simpl.
    destruct (main σ) as [rest|errs|r]; rewrite ?Hobj, ?Homap.
    + done.
    + destruct Hmain as (? & ? & ? & Hec). repeat split; try done.
      destruct (errChClosed σ); [|done]. destruct Hec. lia.
    + destruct Hmain as (? & [?|(_ & _ & _ & ? & _)]); [|lia].
      split; [done|by left].
Qed.

(** A send on [errCh] meets the receive of the caller. *)
Lemma consistent_rendezvous (σ : State) (i : nat) (g : goroutine)
      (e : error) (errs : list error) :
  consistent store path localPath w σ ->
  workers σ !! i = Some g ->
  pc g = WSend e ->
  main σ = MDrain errs ->
  consistent store path localPath w
    (set_pc i g WFinish (with_main (MDrain (errs ++ [e])) σ)).
Proof.
  intros [Hp Hsvc Hwg Hne Hsend Hlog Hmain] Hi Hpc Hm.
  pose proof (pending_set_pc _ _ _ WFinish Hi) as Hpend.
  rewrite Hpc in Hpend. simpl in Hpend.
  assert (obj <$> <[i:={| obj := obj g; pc := WFinish |}]> (workers σ)
          = obj <$> workers σ) as Hobj by by eapply fmap_insert_same.
  assert (failure_of store path localPath (svc w) (obj g) = Some e) as Hf.
  { eapply Hsend; [|done]. by eapply list_elem_of_lookup_2. }
  rewrite Hm in Hmain. destruct Hmain as (HL & Hdc & Herrs & Hec).
  constructor; simpl; try done.
  - lia.
  - apply Forall_insert_same; [done|]. simpl.
    eapply Forall_lookup_1 in Hne; eauto.
  - intros g' e' Hg' Hpc'. apply elem_of_insert_inv in Hg' as [->|Hg'];
      [done | eauto].
  - destruct Hlog as (ds & Hlog & Hds). exists ds. split; [done|].
    erewrite omap_insert_same; [done..|].
    unfold requested. simpl. by rewrite Hpc.
  - rewrite Hobj. repeat split; try done.
    + rewrite (omap_insert_new _ _ _ g _ e Hi).
      * rewrite <- Herrs. by rewrite Permutation_app_comm.
      * unfold reported. by rewrite Hpc.
      * done.
    + destruct (errChClosed σ); [|done]. destruct Hec. split; [done|lia].
Qed.

(** While a goroutine stands at its send, [errCh] is open. *)
Lemma consistent_open (σ : State) (i : nat) (g : goroutine) (e : error) :
  consistent store path localPath w σ ->
  workers σ !! i = Some g ->
  pc g = WSend e ->
  errChClosed σ = false.
Proof.
  intros [Hp Hsvc Hwg Hne Hsend Hlog Hmain] Hi Hpc.
  assert (0 < pending (workers σ)) as Hpos.
  { eapply pending_lookup; [done|]. by rewrite Hpc. }
  destruct (main σ) as [rest|errs|r].
  - by destruct Hmain as (_ & _ & ? & _).
  - destruct Hmain as (_ & _ & _ & Hec).
    destruct (errChClosed σ); [|done]. destruct Hec. lia.
  - destruct Hmain as (_ & [(? & ? & ? & ? & _ & _ & _ & _ & _ & ? & _)
                           |(_ & _ & _ & ? & _)]); [done|lia].
Qed.

Lemma consistent_step_worker (σ σ' : State) (i : nat) :
  consistent store path localPath w σ ->
  step store path localPath (Worker i) σ = Some σ' ->
  consistent store path localPath w σ'.
Proof.
  intros Hc Hstep. unfold step in Hstep.
  rewrite (c_panicked _ _ _ _ _ Hc) in Hstep.
  destruct (workers σ !! i) as [g|] eqn:Hi; [|done].
  destruct (pc g) as [|e| |] eqn:Hpc; try done.
  - destruct (gostrings.HasSuffix (Key (obj g)) "/") eqn:Hdir.
    + (* a pseudo-directory: nothing to download *)
      injection Hstep as <-.
      apply consistent_finish; try done.
      * by rewrite Hpc.
      * unfold reported, failure_of. simpl. by rewrite Hpc, Hdir.
      * unfold requested, download_of. simpl. by rewrite Hpc, Hdir.
    + (* the download *)
      unfold DownloadFile, mbind, M_bind, field, send, mret, M_ret in Hstep.
      simpl in Hstep.
      rewrite (c_svc _ _ _ _ _ Hc) in Hstep.
      assert (FGetObject store (s3Client (svc w)) (bucketName (svc w))
                         (Key (obj g)) (localFile path localPath (Key (obj g)))
              = failure_of store path localPath (svc w) (obj g)) as Hf
        by (unfold failure_of; by rewrite Hdir).
      assert (forall p, started p = true ->
                exists ds,
                  log (world σ)
                    ++ [ReqFGetObject (bucketName (svc w)) (Key (obj g))
                          (localFile path localPath (Key (obj g)))]
                  = log w ++ ReqListObjectsV2 (bucketName (svc w)) path true
                      :: ds
                  /\ ds ≡ₚ omap (requested path localPath w)
                                (<[i := mkGoroutine (obj g) p]> (workers σ)))
        as Hlog.
      { intros p Hs. destruct (c_log _ _ _ _ _ Hc) as (ds & Hlog & Hds).
        eexists (ds ++ [_]). split.
        - by rewrite Hlog, <- app_assoc.
        - rewrite (omap_insert_new _ _ _ g _
                     (ReqFGetObject (bucketName (svc w)) (Key (obj g))
                        (localFile path localPath (Key (obj g)))) Hi).
          + rewrite <- Hds. by rewrite Permutation_app_comm.
          + unfold requested. by rewrite Hpc.
          + unfold requested, download_of. simpl. by rewrite Hs, Hdir. }
      rewrite Hf in Hstep.
      destruct (failure_of store path localPath (svc w) (obj g)) as [e|]
        eqn:Hfail; injection Hstep as <-.
      * apply consistent_move;
          [done | done | done | by rewrite Hpc | by intros ? [= <-]
          | unfold reported; simpl; by rewrite Hpc | done | by apply Hlog].
      * apply consistent_move;
          [done | done | done | by rewrite Hpc | done
          | unfold reported; simpl; by rewrite Hpc, Hfail | done
          | by apply Hlog].
  - (* the send *)
    rewrite (consistent_open _ _ _ _ Hc Hi Hpc) in Hstep.
    destruct (main σ) as [rest|errs|r] eqn:Hm; try done.
    injection Hstep as <-. by apply consistent_rendezvous.
  - (* [wg.Done()] *)
    injection Hstep as <-.
    apply consistent_finish; try done.
    + by rewrite Hpc.
    + unfold reported. simpl. by rewrite Hpc.
    + unfold requested. simpl. by rewrite Hpc.
Qed.

Lemma consistent_step (t : tid) (σ σ' : State) :
  consistent store path localPath w σ ->
  step store path localPath t σ = Some σ' ->
  consistent store path localPath w σ'.
Proof.
  destruct t;
    eauto using consistent_step_main, consistent_step_worker,
                consistent_step_closer.
Qed.

Lemma reachable_consistent (σ : State) :
  reachable store path localPath w σ ->
  consistent store path localPath w σ.
Proof.
  intros H.
  eapply (rtc_ind_r (consistent store path localPath w)); [| |exact H].
  - apply consistent_init.
  - intros σ1 σ2 _ [t Ht] IH. by eapply consistent_step.
Qed.

(** While the caller has not returned, some goroutine can move. *)
Lemma consistent_progress (σ : State) :
  consistent store path localPath w σ ->
  nf (steps store path localPath) σ ->
  exists r, main σ = MReturned r.
Proof.
  intros Hc Hnf.
  destruct (main σ) as [rest|errs|r] eqn:Hm; [exfalso; apply Hnf..|by eexists].
  - (* ranging over the listing never blocks *)
    unfold red, steps. 
    assert (is_Some (step store path localPath Main σ)) as [σ' H];
      [|by exists σ', Main].
    unfold step. rewrite (c_panicked _ _ _ _ _ Hc), Hm.
    destruct rest as [|o rest]; [done|]. by destruct (Err o).
  - pose proof (c_main _ _ _ _ _ Hc) as Hmain. rewrite Hm in Hmain.
    destruct Hmain as (HL & Hdc & Herrs & Hec).
    destruct (errChClosed σ) eqn:Hclosed.
    + exists (return_ (aggregate errs) σ), Main. unfold step.
      rewrite (c_panicked _ _ _ _ _ Hc), Hm, Hclosed.
      apply Errorf_aggregate.
    + destruct (wg σ) as [|n] eqn:Hn.
      * exists (with_closer CDone (close_errCh σ)), Closer. unfold step.
        by rewrite (c_panicked _ _ _ _ _ Hc), Hec, Hn.
      * assert (0 < pending (workers σ)) as Hpos
          by (rewrite <- (c_wg _ _ _ _ _ Hc); lia).
        apply sum_list_with_pos in Hpos as (i & g & Hi & Hg).
        assert (is_Some (step store path localPath (Worker i) σ))
          as [σ' H]; [|by exists σ', (Worker i)].
        unfold step. rewrite (c_panicked _ _ _ _ _ Hc), Hi.
        destruct (pc g) as [|e| |] eqn:Hpc; simpl in Hg; try lia.
        -- destruct (gostrings.HasSuffix _ _); [done|].
           destruct (DownloadFile _ _ _ _) as [[?|] ?]; done.
        -- by rewrite Hclosed, Hm.
        -- done.
Qed.

End Invariant.

(** ** What the call returns *)

Lemma first_error_prefix (l1 rest pre post : list ObjectInfo) (o : ObjectInfo) :
  l1 ++ rest = pre ++ o :: post ->
  Forall no_error l1 -> ~ no_error o ->
  l1 `prefix_of` pre.
Proof.
  revert pre. induction l1 as [|a l1 IH]; intros pre Heq Hl1 Ho.
  - by exists pre.
  - apply Forall_cons in Hl1 as [Ha Hl1].
    destruct pre as [|b pre]; simplify_eq/=; [done|].
    destruct (IH pre) as [k ->]; try done. by exists k.
Qed.

Lemma first_error_unique (pre1 post1 pre2 post2 : list ObjectInfo)
      (o1 o2 : ObjectInfo) :
  pre1 ++ o1 :: post1 = pre2 ++ o2 :: post2 ->
  Forall no_error pre1 -> ~ no_error o1 ->
  Forall no_error pre2 -> ~ no_error o2 ->
  pre1 = pre2 /\ o1 = o2.
Proof.
  revert pre2. induction pre1 as [|a pre1 IH]; intros pre2 Heq H1 Ho1 H2 Ho2.
  - destruct pre2 as [|b pre2]; simplify_eq/=; [done|].
    by apply Forall_cons in H2 as [? _].
  - apply Forall_cons in H1 as [Ha H1].
    destruct pre2 as [|b pre2]; simplify_eq/=; [done|].
    apply Forall_cons in H2 as [_ H2].
    destruct (IH pre2) as [-> ->]; done.
Qed.

Lemma drop_log (lw ds : list Request) (r : Request) :
  drop (S (length lw)) (lw ++ r :: ds) = ds.
Proof.
  rewrite (cons_middle r lw ds), app_assoc.
  apply drop_app_length'. rewrite length_app. simpl. lia.
Qed.

Section Results.

Variable store : Store.
Variables path localPath : string.
Variable w : World.

Lemma returns_with_intro (Q : option error -> State -> Prop) :
  (forall σ r, consistent store path localPath w σ ->
               main σ = MReturned r -> Q r σ) ->
  returns_with store path localPath w Q.
Proof.
  intros HQ σ Hσ. apply (reachable_consistent store path localPath w) in Hσ.
  split; [apply steps_sn|]. split; [by apply (consistent_progress store path localPath w)|].
  intros r Hr. by apply HQ.
Qed.

Lemma consistent_downloads (σ : State) :
  consistent store path localPath w σ ->
  downloads w σ ≡ₚ omap (requested path localPath w) (workers σ).
Proof.
  intros Hc. destruct (c_log _ _ _ _ _ Hc) as (ds & Hlog & Hds).
  unfold downloads. by rewrite Hlog, drop_log.
Qed.

Lemma consistent_dispatched (σ : State) :
  consistent store path localPath w σ ->
  (obj <$> workers σ) `prefix_of` listing store path w.
Proof.
  intros Hc. pose proof (c_main _ _ _ _ _ Hc) as Hmain.
  destruct (main σ) as [rest|errs|r].
  - destruct Hmain as (HL & _). by exists rest.
  - destruct Hmain as (HL & _). exists []. by rewrite app_nil_r.
  - destruct Hmain as (_ & [(pre & o & e & post & HL & _ & Hpre & _)
                           |(HL & _)]).
    + exists (o :: post). by rewrite Hpre.
    + exists []. by rewrite app_nil_r.
Qed.

Lemma consistent_dispatched_ok (σ : State) :
  consistent store path localPath w σ ->
  Forall no_error (obj <$> workers σ).
Proof.
  intros Hc. apply Forall_fmap. apply (c_noerr _ _ _ _ _ Hc).
Qed.

(** With every goroutine returned, all their requests and failures are
    those of the objects. *)
Lemma all_done_requested (ws : list goroutine) :
  pending ws = 0 ->
  omap (requested path localPath w) ws
  = omap (download_of path localPath (svc w)) (obj <$> ws).
Proof.
  intros H. apply sum_list_with_zero in H.
  induction H as [|g ws Hg _ IH]; [done|]. simpl.
  unfold requested at 1. destruct (pc g); simplify_eq/=; by rewrite IH.
Qed.

Lemma all_done_failed (ws : list goroutine) :
  pending ws = 0 ->
  omap (failed store path localPath w) ws
  = omap (failure_of store path localPath (svc w)) (obj <$> ws).
Proof.
  intros H. apply sum_list_with_zero in H.
  induction H as [|g ws Hg _ IH]; [done|]. simpl.
  unfold failed at 1. destruct (pc g); simplify_eq/=; by rewrite IH.
Qed.

Lemma aggregate_None (errs : list error) : aggregate errs = None <-> errs = [].
Proof. by destruct errs. Qed.

(** The exit through the drained channel. *)
Lemma drained_exit_result (σ : State) (r : option error) :
  consistent store path localPath w σ ->
  drained_exit store path localPath w σ r ->
  aggregates_failures store path localPath w r σ
  /\ download_failures store path localPath w σ
     = omap (failure_of store path localPath (svc w))
            (listing store path w)
  /\ downloads w σ
     ≡ₚ omap (download_of path localPath (svc w)) (listing store path w).
Proof.
  intros Hc (HL & _ & _ & Hpend & errs & Herrs & ->).
  assert (download_failures store path localPath w σ
          = omap (failure_of store path localPath (svc w))
                 (listing store path w)) as Hfail.
  { unfold download_failures. by rewrite all_done_failed, HL. }
  repeat split.
  - rewrite aggregate_None. intros ->. rewrite Hfail.
    by apply Permutation_nil_l in Herrs.
  - rewrite aggregate_None. intros H. rewrite Hfail in H.
    rewrite H in Herrs. by apply Permutation_nil_r in Herrs.
  - exists errs. by rewrite Hfail.
  - done.
  - by rewrite consistent_downloads, all_done_requested, HL.
Qed.

(** A listing without an error is drained. *)
Lemma no_error_drained (σ : State) (r : option error) :
  consistent store path localPath w σ ->
  Forall no_error (listing store path w) ->
  main σ = MReturned r ->
  drained_exit store path localPath w σ r.
Proof.
  intros Hc HL Hr. pose proof (c_main _ _ _ _ _ Hc) as Hmain.
  rewrite Hr in Hmain.
  destruct Hmain as (_ & [(pre & o & e & post & Heq & He & _)|H]); [|done].
  rewrite Heq in HL. apply Forall_app in HL as [_ HL].
  apply Forall_cons in HL as [Ho _]. unfold no_error in Ho. congruence.
Qed.

(** A listing with an error: what is started, and what is returned. *)
Lemma error_dispatched (σ : State) (pre post : list ObjectInfo)
      (o : ObjectInfo) (e : error) :
  consistent store path localPath w σ ->
  listing store path w = pre ++ o :: post ->
  Err o = Some e ->
  (obj <$> workers σ) `prefix_of` pre.
Proof.
  intros Hc HL He.
  destruct (consistent_dispatched _ Hc) as [rest Hrest].
  eapply first_error_prefix.
  - by rewrite <- Hrest, HL.
  - by apply consistent_dispatched_ok.
  - unfold no_error. congruence.
Qed.

Lemma error_enumeration_exit (σ : State) (pre post : list ObjectInfo)
      (o : ObjectInfo) (e : error) (r : option error) :
  consistent store path localPath w σ ->
  listing store path w = pre ++ o :: post ->
  Forall no_error pre ->
  Err o = Some e ->
  main σ = MReturned r ->
  r = Some e
  /\ obj <$> workers σ = pre
  /\ closer σ = CNone
  /\ errChClosed σ = false
  /\ omap (reported store path localPath w) (workers σ) = [].
Proof.
  intros Hc HL Hpre He Hr.
  pose proof (c_main _ _ _ _ _ Hc) as Hmain. rewrite Hr in Hmain.
  destruct Hmain as (_ & [(pre' & o' & e' & post' & Heq & He' & Hobj & -> & Hcl & Hec & Hrep)
                         |(Hobj & _)]).
  - destruct (first_error_unique pre post pre' post' o o') as [-> ->].
    + by rewrite <- HL.
    + done.
    + unfold no_error. congruence.
    + rewrite <- Hobj. by apply consistent_dispatched_ok.
    + unfold no_error. congruence.
    + repeat split; try done. congruence.
  - exfalso.
    pose proof (consistent_dispatched_ok _ Hc) as Hok.
    rewrite Hobj, HL in Hok. apply Forall_app in Hok as [_ Hok].
    apply Forall_cons in Hok as [Ho _]. unfold no_error in Ho. congruence.
Qed.

(** A request sent is the request of a goroutine that was started. *)
Lemma consistent_download_of (σ : State) (req : Request) :
  consistent store path localPath w σ ->
  req ∈ downloads w σ ->
  exists o, o ∈ obj <$> workers σ
            /\ download_of path localPath (svc w) o = Some req.
Proof.
  intros Hc Hreq. rewrite (consistent_downloads _ Hc) in Hreq.
  apply list_elem_of_omap in Hreq as (g & Hg & Hr).
  exists (obj g). split; [by apply list_elem_of_fmap_2|].
  unfold requested in Hr. by destruct (started (pc g)).
Qed.

End Results.

(** ** Schedules *)

Section Schedules.

Variable store : Store.
Variables path localPath : string.

Lemma run_steps (sched : list tid) (σ : State) :
  rtc (steps store path localPath) σ (run store path localPath sched σ).
Proof.
  revert σ. induction sched as [|t sched IH]; intros σ; simpl; [done|].
  destruct (step store path localPath t σ) as [σ'|] eqn:Ht; [|done].
  eapply rtc_l; [by exists t | done].
Qed.

Lemma run_reachable (w : World) (sched : list tid) :
  reachable store path localPath w
    (run store path localPath sched (DownloadDirectory_init store path w)).
Proof. apply run_steps. Qed.

Lemma quiescent_nf (σ : State) :
  quiescent store path localPath σ = true ->
  nf (steps store path localPath) σ.
Proof.
  unfold quiescent. rewrite !andb_true_iff, !bool_decide_eq_true.
  intros [[Hmain Hcloser] Hworkers] (σ' & [|i|] & Ht); try congruence.
  destruct (decide (i < length (workers σ))) as [Hi|Hi].
  - rewrite forallb_forall in Hworkers.
    specialize (Hworkers i). rewrite bool_decide_eq_true in Hworkers.
    rewrite Hworkers in Ht; [done|]. apply in_seq. lia.
  - unfold step in Ht. rewrite lookup_ge_None_2 in Ht by lia.
    by destruct (panicked σ).
Qed.

End Schedules.

(** ** The order of the collected failures *)

Section Receipts.

Variable store : Store.
Variables path localPath : string.

Lemma step_returned (t : tid) (σ σ' : State) (r : option error) :
  step store path localPath t σ = Some σ' ->
  main σ = MReturned r ->
  main σ' = MReturned r /\ handed_over t σ = [].
Proof.
  intros Ht Hr. unfold step in Ht. unfold handed_over. rewrite Hr in *.
  destruct (panicked σ); [done|].
  destruct t as [|i|].
  - done.
  - split; [|done].
    destruct (workers σ !! i) as [g|]; [|done].
    destruct (pc g); try done.
    + destruct (gostrings.HasSuffix _ _).
      * injection Ht as <-. unfold wgDone. by destruct (wg σ).
      * destruct (DownloadFile _ _ _ _) as [[?|] ?]; by injection Ht as <-.
    + destruct (errChClosed σ); [|done]. by injection Ht as <-.
    + injection Ht as <-. unfold wgDone. by destruct (wg σ).
  - split; [|done]. destruct (closer σ); try done.
    destruct (wg σ =? 0)%nat; [|done]. by injection Ht as <-.
Qed.

Lemma run_returned (sched : list tid) (σ : State) (r : option error) :
  main σ = MReturned r ->
  main (run store path localPath sched σ) = MReturned r
  /\ receipts store path localPath sched σ = [].
Proof.
  revert σ. induction sched as [|t sched IH]; intros σ Hr; [done|]. simpl.
  destruct (step store path localPath t σ) as [σ'|] eqn:Ht; [|by apply IH].
  destruct (step_returned _ _ _ _ Ht Hr) as [Hr' ->]. by apply IH.
Qed.

(** What the caller returns is the aggregate of what it holds and what it
    receives from then on, in that order. *)
Lemma run_receipts (sched : list tid) (σ : State) (r : option error) :
  main (run store path localPath sched σ) = MReturned r ->
  match main σ with
  | MRange rest =>
      Forall no_error rest ->
      r = aggregate (receipts store path localPath sched σ)
  | MDrain errs =>
      r = aggregate (errs ++ receipts store path localPath sched σ)
  | MReturned r' => r = r'
  end.
Proof.
  revert σ. induction sched as [|t sched IH]; intros σ Hrun; simpl in *.
  - rewrite Hrun. done.
  - destruct (step store path localPath t σ) as [σ'|] eqn:Ht;
      [|by apply IH].
    specialize (IH _ Hrun). unfold step in Ht. unfold handed_over.
    destruct (panicked σ); [done|].
    destruct t as [|i|].
    + destruct (main σ) as [[|o rest]|errs|r'] eqn:Hm; try done.
      * injection Ht as <-. simpl in IH. by intros _.
      * intros Hrest. apply Forall_cons in Hrest as [Ho Hrest].
        unfold no_error in Ho. rewrite Ho in Ht. injection Ht as <-.
        simpl in IH. by apply IH.
      * destruct (errChClosed σ); [|done].
        rewrite Errorf_aggregate in Ht. injection Ht as <-.
        destruct (run_returned sched (return_ (aggregate errs) σ)
                               (aggregate errs) eq_refl) as [_ ->].
        simpl in IH. by rewrite app_nil_r.
    + destruct (workers σ !! i) as [g|] eqn:Hi; [|done].
      destruct (pc g) as [|e| |] eqn:Hpc; try done.
      * assert (main σ' = main σ) as Hm.
        { destruct (gostrings.HasSuffix _ _).
          - injection Ht as <-. unfold wgDone. by destruct (wg σ).
          - destruct (DownloadFile _ _ _ _) as [[?|] ?];
              by injection Ht as <-. }
        rewrite Hm in IH. destruct (main σ); by simpl.
      * destruct (errChClosed σ).
        -- injection Ht as <-. simpl in IH. destruct (main σ); by simpl.
        -- destruct (main σ) as [|errs|] eqn:Hm; try done.
           injection Ht as <-. simpl in IH. by rewrite <- app_assoc in IH.
      * assert (main σ' = main σ) as Hm
          by (injection Ht as <-; unfold wgDone; by destruct (wg σ)).
        rewrite Hm in IH. destruct (main σ); by simpl.
    + assert (main σ' = main σ) as Hm.
      { destruct (closer σ); try done.
        destruct (wg σ =? 0)%nat; [|done]. by injection Ht as <-. }
      rewrite Hm in IH. destruct (main σ); by simpl.
Qed.

End Receipts.

(** The texts of the failures stand in the text of the aggregate. *)
Lemma concat_mentions (l : list string) (x : string) :
  x ∈ l -> mentions (String.concat " " l) x.
Proof.
  induction l as [|y l IH]; intros Hx; [by apply elem_of_nil in Hx|].
  apply elem_of_cons in Hx as [->|Hx].
  - destruct l as [|z l].
    + exists "", "". simpl. by rewrite app_empty_r.
    + exists "", (" " +:+ String.concat " " (z :: l)). done.
  - destruct l as [|z l]; [by apply elem_of_nil in Hx|].
    destruct (IH Hx) as (before & after & Heq).
    exists (y +:+ " " +:+ before), after.
    change (String.concat " " (y :: z :: l))
      with (y +:+ " " +:+ String.concat " " (z :: l)).
    rewrite Heq. by rewrite !app_assoc_s.
Qed.

Lemma aggregate_reports (errs : list error) (e : error) :
  e ∈ errs -> reports (aggregate errs) e.
Proof.
  intros He. destruct errs as [|e0 errs]; [by apply elem_of_nil in He|].
  destruct (concat_mentions (Error <$> e0 :: errs) (Error e))
    as (before & after & Heq); [by apply list_elem_of_fmap_2|].
  unfold reports, aggregate. eexists. split; [reflexivity|].
  exists ("failed to download files from s3: [" +:+ before), (after +:+ "]").
  cbn [Error]. rewrite Heq. by rewrite !app_assoc_s.
Qed.

(** The scenarios of the specification, run under one schedule. *)
Example reports_run :
  DownloadDirectory reports_store "reports/2024" "/tmp/out"
    [Main; Main; Main; Main; Worker 2; Worker 0; Worker 1;
     Worker 1; Worker 2; Closer; Main]
    demo_world
  = (Some None,
     mkWorld demo_service
       [ReqListObjectsV2 "bucket" "reports/2024" true;
        ReqFGetObject "bucket" "reports/2024/b.json" "/tmp/out/b.json";
        ReqFGetObject "bucket" "reports/2024/a.json" "/tmp/out/a.json"]).
Proof. reflexivity. Qed.

Example flaky_run :
  DownloadDirectory flaky_store "reports/2024" "/tmp/out"
    [Main; Main; Main; Main; Worker 0; Worker 1; Worker 2;
     Worker 1; Worker 2; Worker 2; Closer; Main]
    demo_world
  = (Some (Some (ErrorString
                   "failed to download files from s3: [connection reset]")),
     mkWorld demo_service
       [ReqListObjectsV2 "bucket" "reports/2024" true;
        ReqFGetObject "bucket" "reports/2024/a.json" "/tmp/out/a.json";
        ReqFGetObject "bucket" "reports/2024/b.json" "/tmp/out/b.json"]).
Proof. reflexivity. Qed.

(** The caller does not return before the goroutines are through: with
    the closing goroutine scheduled too early, the channel stays open. *)
Example early_closer_waits :
  result (DownloadDirectory flaky_store "reports/2024" "/tmp/out"
            [Main; Main; Main; Main; Closer; Main; Worker 0; Worker 1])
         demo_world
  = None.
Proof. reflexivity. Qed.

(** ** The directory download *)

(** C1, as stated, fails: when the listing breaks off after an object
    whose download has failed, [DownloadDirectory] returns the error of
    the listing, and the failed download is not part of the result. *)
Lemma DownloadDirectory_drops_failure :
  ~ returns_with broken_store "d" "/tmp/out" demo_world
      (aggregates_failures broken_store "d" "/tmp/out" demo_world).
Proof.
  intros H.
  pose (σ := run broken_store "d" "/tmp/out" [Main; Worker 0; Main]
               (DownloadDirectory_init broken_store "d" demo_world)).
  destruct (H σ) as (_ & _ & Hret); [apply run_reachable|].
  destruct (Hret (Some listing_error)) as (_ & errs & Herrs & Hagg);
    [done|].
  change (download_failures broken_store "d" "/tmp/out" demo_world σ)
    with [download_error] in Herrs.
  apply Permutation_singleton_r in Herrs. by subst errs.
Qed.

(** C1 (amended): when the listing reports no enumeration error, every
    interleaving of [DownloadDirectory] terminates with the caller
    returned; the result is success exactly when no download failed, and
    otherwise the one aggregate error over the whole list of collected
    failures: the list holds exactly one error per failed download of the
    listing, the text of each of them stands in the text of the result,
    and their order is the order in which the caller received them. *)
Theorem DownloadDirectory_aggregates
        (store : Store) (path localPath : string) (w : World) :
  Forall no_error (listing store path w) ->
  returns_with store path localPath w
    (fun r σ =>
       aggregates_failures store path localPath w r σ
       /\ download_failures store path localPath w σ
          = omap (failure_of store path localPath (svc w))
                 (listing store path w)
       /\ Forall (reports r) (download_failures store path localPath w σ))
  /\ forall sched r,
       main (run store path localPath sched
                 (DownloadDirectory_init store path w))
       = MReturned r ->
       r = aggregate (receipts store path localPath sched
                               (DownloadDirectory_init store path w)).
Proof.
  intros HL. split.
  - apply returns_with_intro. intros σ r Hc Hr.
    pose proof (no_error_drained _ _ _ _ _ _ Hc HL Hr) as Hd.
    destruct (drained_exit_result _ _ _ _ _ _ Hc Hd) as (Hagg & Hfail & _).
    repeat split; try apply Hagg; try done.
    destruct Hagg as (_ & errs & Herrs & ->).
    apply Forall_forall. intros e He. apply aggregate_reports.
    by rewrite Herrs.
  - intros sched r Hrun.
    by apply (run_receipts store path localPath sched _ r Hrun).
Qed.

Lemma DownloadDirectory_aggregates_witness :
  Forall no_error (listing flaky_store "reports/2024" demo_world)
  /\ forall sched r,
       main (run flaky_store "reports/2024" "/tmp/out" sched
                 (DownloadDirectory_init flaky_store "reports/2024" demo_world))
       = MReturned r ->
       r = aggregate (receipts flaky_store "reports/2024" "/tmp/out" sched
                        (DownloadDirectory_init flaky_store "reports/2024"
                                                demo_world)).
Proof.
  split.
  - repeat constructor.
  - apply (DownloadDirectory_aggregates flaky_store "reports/2024" "/tmp/out"
             demo_world).
    repeat constructor.
Defined.

(** C2: when entry K of the listing is the one that reports an error,
    every interleaving terminates with the caller returned, the value
    returned is that very error, the goroutines started are those of
    entries before K, and every download requested is the download of an
    object before K. *)
Theorem DownloadDirectory_enumeration_error
        (store : Store) (path localPath : string) (w : World)
        (pre post : list ObjectInfo) (o : ObjectInfo) (e : error) :
  listing store path w = pre ++ o :: post ->
  Forall no_error pre ->
  Err o = Some e ->
  returns_with store path localPath w (fun r _ => r = Some e)
  /\ forall σ, reachable store path localPath w σ ->
       (obj <$> workers σ) `prefix_of` pre
       /\ Forall (fun req =>
                    exists o', o' ∈ pre
                      /\ download_of path localPath (svc w) o' = Some req)
                 (downloads w σ).
Proof.
  intros HL Hpre He. split.
  - apply returns_with_intro. intros σ r Hc Hr.
    by destruct (error_enumeration_exit _ _ _ _ _ _ _ _ _ _ Hc HL Hpre He Hr).
  - intros σ Hσ. apply reachable_consistent in Hσ.
    pose proof (error_dispatched _ _ _ _ _ _ _ _ _ Hσ HL He) as Hdis.
    split; [done|]. apply Forall_forall. intros req Hreq.
    destruct (consistent_download_of _ _ _ _ _ _ Hσ Hreq) as (o' & Ho' & Hd).
    exists o'. split; [|done]. destruct Hdis as [k ->].
    apply elem_of_app. by left.
Qed.

Lemma DownloadDirectory_enumeration_error_witness :
  returns_with broken_store "d" "/tmp/out" demo_world
    (fun r _ => r = Some listing_error)
  /\ forall σ, reachable broken_store "d" "/tmp/out" demo_world σ ->
       (obj <$> workers σ) `prefix_of` [mkObjectInfo "d/k" None]
       /\ Forall (fun req =>
                    exists o', o' ∈ [mkObjectInfo "d/k" None]
                      /\ download_of "d" "/tmp/out" (svc demo_world) o'
                         = Some req)
                 (downloads demo_world σ).
Proof.
  apply (DownloadDirectory_enumeration_error broken_store "d" "/tmp/out"
           demo_world [mkObjectInfo "d/k" None] []
           (mkObjectInfo "" (Some listing_error)) listing_error).
  - reflexivity.
  - repeat constructor.
  - reflexivity.
Defined.

(** C3, as stated, fails: with the prefix ["reports/2024/"] the string
    stripped from a key is ["reports/2024//"], which is a prefix of
    neither key, so the files go below ["/tmp/out/reports/2024/"]. *)
Lemma reports_scenario_trailing_separator :
  ~ returns_with reports_store "reports/2024/" "/tmp/out" demo_world
      reports_expected.
Proof.
  intros H.
  pose (σ := run reports_store "reports/2024/" "/tmp/out"
               [Main; Main; Main; Main; Worker 0; Worker 1; Worker 2;
                Worker 1; Worker 2; Closer; Main]
               (DownloadDirectory_init reports_store "reports/2024/"
                                       demo_world)).
  destruct (H σ) as (_ & _ & Hret); [apply run_reachable|].
  destruct (Hret None) as (_ & Hperm); [done|].
  change (downloads demo_world σ)
    with [ReqFGetObject "bucket" "reports/2024/a.json"
                        "/tmp/out/reports/2024/a.json";
          ReqFGetObject "bucket" "reports/2024/b.json"
                        "/tmp/out/reports/2024/b.json"] in Hperm.
  assert (ReqFGetObject "bucket" "reports/2024/a.json"
                        "/tmp/out/reports/2024/a.json"
          ∈ [ReqFGetObject "bucket" "reports/2024/a.json" "/tmp/out/a.json";
             ReqFGetObject "bucket" "reports/2024/b.json" "/tmp/out/b.json"])
    as Hin by (rewrite <- Hperm; apply list_elem_of_here).
  rewrite !elem_of_cons in Hin. rewrite elem_of_nil in Hin.
  by destruct Hin as [?|[?|?]].
Qed.

(** C3 (amended): with the prefix ["reports/2024"] (no trailing
    separator), the local root ["/tmp/out"] and the listing of the marker
    ["reports/2024/"] and the keys ["reports/2024/a.json"] and
    ["reports/2024/b.json"], both downloads succeeding, every interleaving
    terminates with the caller returning success, and the downloads
    requested are exactly those of the two files, to ["/tmp/out/a.json"]
    and ["/tmp/out/b.json"]; none is requested for the marker. *)
Theorem reports_scenario :
  returns_with reports_store "reports/2024" "/tmp/out" demo_world
    reports_expected.
Proof.
  apply returns_with_intro. intros σ r Hc Hr.
  assert (Forall no_error (listing reports_store "reports/2024" demo_world))
    as HL by repeat constructor.
  pose proof (no_error_drained _ _ _ _ _ _ Hc HL Hr) as Hd.
  destruct (drained_exit_result _ _ _ _ _ _ Hc Hd)
    as ((Hnone & _) & Hfail & Hdown).
  split; [by apply Hnone|]. exact Hdown.
Qed.




Lemma omap_download_of (path localPath : string) (s : S3Service)
      (keys : list string) :
  omap (download_of path localPath s) (object <$> keys)
  = (fun key => ReqFGetObject (bucketName s) key
                  (localPath +:+ "/"
                   +:+ gostrings.TrimPrefix key (path +:+ "/")))
      <$> filter (fun key => gostrings.HasSuffix key "/" = false) keys.
Proof.
  induction keys as [|key keys IH]; [done|].
  rewrite filter_cons. simpl. unfold download_of at 1. simpl.
  destruct (decide (gostrings.HasSuffix key "/" = false)) as [Hm|Hm].
  - rewrite Hm. simpl. f_equal. exact IH.
  - apply not_false_is_true in Hm. rewrite Hm. exact IH.
Qed.





(** C6, as stated, fails: the goroutine is started before the key is
    looked at, also for a pseudo-directory marker. *)
Lemma marker_gets_goroutine :
  ~ no_worker_for_marker marker_store "d" "/tmp/out" demo_world.
Proof.
  intros H.
  specialize (H (run marker_store "d" "/tmp/out" [Main]
                     (DownloadDirectory_init marker_store "d" demo_world))
                (run_reachable _ _ _ _ _)).
  apply Forall_cons in H as [H _]. discriminate H.
Qed.

(** C6 (amended): a goroutine is started for a descriptor whose key ends
    with the separator, but it requests no download and never stands at
    the send of an error: every download requested is for a key that does
    not end with the separator.  Consequently, when the listing holds
    only such markers, every interleaving terminates with the caller
    returning success and no download requested. *)
Theorem DownloadDirectory_markers
        (store : Store) (path localPath : string) (w : World) :
  (forall σ, reachable store path localPath w σ ->
     Forall downloads_file (downloads w σ)
     /\ Forall (fun g => is_marker (obj g) = true ->
                         forall e, pc g <> WSend e)
               (workers σ))
  /\ (Forall (fun o => no_error o /\ is_marker o = true)
             (listing store path w) ->
      returns_with store path localPath w
        (fun r σ => r = None /\ downloads w σ = [])).
Proof.
  split.
  - intros σ Hσ. apply reachable_consistent in Hσ. split.
    + apply Forall_forall. intros req Hreq.
      destruct (consistent_download_of _ _ _ _ _ _ Hσ Hreq) as (o & _ & Hd).
      unfold download_of in Hd.
      destruct (gostrings.HasSuffix (Key o) "/") eqn:Hdir; [done|].
      injection Hd as <-. by eexists _, _, _.
    + apply Forall_forall. intros g Hg Hm e Hpc.
      pose proof (c_send _ _ _ _ _ Hσ g e Hg Hpc) as Hf.
      unfold failure_of, is_marker in *. by rewrite Hm in Hf.
  - intros HL. apply returns_with_intro. intros σ r Hc Hr.
    assert (Forall no_error (listing store path w)) as HL'
      by (eapply Forall_impl; [exact HL | by intros ? [? _]]).
    pose proof (no_error_drained _ _ _ _ _ _ Hc HL' Hr) as Hd.
    destruct (drained_exit_result _ _ _ _ _ _ Hc Hd)
      as ((Hnone & _) & Hfail & Hdown).
    assert (forall A (f : ObjectInfo -> option A),
              (forall o, is_marker o = true -> f o = None) ->
              omap f (listing store path w) = []) as Hnil.
    { intros A f Hf. clear -HL Hf.
      revert HL. generalize (listing store path w). intros l HL.
      induction HL as [|o l [_ Ho] _ IH]; [done|]. simpl.
      by rewrite (Hf o Ho). }
    split.
    + apply Hnone. rewrite Hfail. apply Hnil.
      intros o Ho. unfold failure_of, is_marker in *. by rewrite Ho.
    + rewrite Hnil in Hdown; [by apply Permutation_nil_r in Hdown|].
      intros o Ho. unfold download_of, is_marker in *. by rewrite Ho.
Qed.

Lemma DownloadDirectory_markers_witness :
  returns_with marker_store "d" "/tmp/out" demo_world
    (fun r σ => r = None /\ downloads demo_world σ = []).
Proof.
  apply (DownloadDirectory_markers marker_store "d" "/tmp/out" demo_world).
  repeat constructor.
Defined.

(** After the exit on an enumeration error nobody receives from [errCh]:
    in a state where no goroutine can move, every goroutine whose
    download fails stands at its send. *)
Lemma enumeration_exit_blocks
      (store : Store) (path localPath : string) (w : World) (σ : State)
      (pre post : list ObjectInfo) (o : ObjectInfo) (e e' : error)
      (g : goroutine) :
  reachable store path localPath w σ ->
  nf (steps store path localPath) σ ->
  listing store path w = pre ++ o :: post ->
  Forall no_error pre ->
  Err o = Some e ->
  g ∈ workers σ ->
  failure_of store path localPath (svc w) (obj g) = Some e' ->
  pc g = WSend e'.
Proof.
  intros Hσ Hnf HL Hpre He Hg Hf.
  apply (reachable_consistent store path localPath w) in Hσ.
  destruct (consistent_progress _ _ _ _ _ Hσ Hnf) as [r Hr].
  destruct (error_enumeration_exit _ _ _ _ _ _ _ _ _ _ Hσ HL Hpre He Hr)
    as (_ & _ & _ & _ & Hrep).
  pose proof Hg as Hg'. apply list_elem_of_lookup in Hg' as [i Hi].
  assert (forall p, pc g = p -> p = WStart \/ p = WFinish -> False) as Hmoves.
  { intros p Hp Hcase. apply Hnf.
    assert (is_Some (step store path localPath (Worker i) σ)) as [σ' H];
      [|by exists σ', (Worker i)].
    unfold step. rewrite (c_panicked _ _ _ _ _ Hσ), Hi, Hp.
    destruct Hcase as [-> | ->]; [|done].
    destruct (gostrings.HasSuffix _ _); [done|].
    by destruct (DownloadFile _ _ _ _) as [[?|] ?]. }
  destruct (pc g) as [|e''| |] eqn:Hpc.
  - exfalso. eapply Hmoves; eauto.
  - pose proof (c_send _ _ _ _ _ Hσ g e'' Hg Hpc). congruence.
  - exfalso. eapply Hmoves; eauto.
  - exfalso.
    assert (e' ∈ omap (reported store path localPath w) (workers σ)) as Hin.
    { apply list_elem_of_omap. exists g. split; [done|].
      unfold reported. by rewrite Hpc. }
    rewrite Hrep in Hin. by apply elem_of_nil in Hin.
Qed.

(** C7 does not hold of the code.  At the listing that breaks off after
    one object whose download fails, in every interleaving that has run
    to its end the caller has returned the error of the listing with the
    deferred close of [doneCh] done, while the goroutine started for the
    object still stands at its send on [errCh]: the [WaitGroup] still
    counts it, the goroutine that would close [errCh] was never started,
    and nobody receives. *)
Theorem enumeration_error_leaves_goroutine (σ : State) :
  reachable broken_store "d" "/tmp/out" demo_world σ ->
  nf (steps broken_store "d" "/tmp/out") σ ->
  main σ = MReturned (Some listing_error)
  /\ workers σ = [mkGoroutine (mkObjectInfo "d/k" None) (WSend download_error)]
  /\ wg σ = 1
  /\ closer σ = CNone
  /\ errChClosed σ = false
  /\ doneChClosed σ = true.
Proof.
  intros Hσ Hnf.
  apply (reachable_consistent broken_store "d" "/tmp/out" demo_world) in Hσ.
  destruct (consistent_progress _ _ _ _ _ Hσ Hnf) as [r Hr].
  destruct (error_enumeration_exit broken_store "d" "/tmp/out" demo_world σ
              [mkObjectInfo "d/k" None] []
              (mkObjectInfo "" (Some listing_error)) listing_error r)
    as (-> & Hobj & Hcl & Hec & Hrep); try done; [repeat constructor|].
  pose proof (c_main _ _ _ _ _ Hσ) as Hmain. rewrite Hr in Hmain.
  destruct Hmain as [Hdc _].
  destruct (workers σ) as [|g [|g' ws]] eqn:Hws; simplify_eq/=.
  destruct g as [o p]. simpl in *. subst o.
  assert (p = WSend download_error) as ->.
  { destruct p as [|e| |].
    - exfalso. apply Hnf.
      assert (is_Some (step broken_store "d" "/tmp/out" (Worker 0) σ))
        as [σ' H]; [|by exists σ', (Worker 0)].
      unfold step. by rewrite (c_panicked _ _ _ _ _ Hσ), Hws.
    - f_equal.
      assert (failure_of broken_store "d" "/tmp/out" (svc demo_world)
                         (mkObjectInfo "d/k" None) = Some e) as Hf.
      { apply (c_send _ _ _ _ _ Hσ (mkGoroutine (mkObjectInfo "d/k" None)
                                                (WSend e)));
          [rewrite Hws; apply list_elem_of_here | done]. }
      by injection Hf as <-.
    - exfalso. apply Hnf.
      assert (is_Some (step broken_store "d" "/tmp/out" (Worker 0) σ))
        as [σ' H]; [|by exists σ', (Worker 0)].
      unfold step. by rewrite (c_panicked _ _ _ _ _ Hσ), Hws.
    - discriminate Hrep. }
  repeat split; try done.
  by rewrite (c_wg _ _ _ _ _ Hσ), Hws.
Qed.

Lemma enumeration_error_leaves_goroutine_witness :
  let σ := run broken_store "d" "/tmp/out" [Main; Worker 0; Main]
               (DownloadDirectory_init broken_store "d" demo_world) in
  main σ = MReturned (Some listing_error)
  /\ workers σ = [mkGoroutine (mkObjectInfo "d/k" None) (WSend download_error)]
  /\ wg σ = 1
  /\ closer σ = CNone
  /\ errChClosed σ = false
  /\ doneChClosed σ = true.
Proof.
  apply (enumeration_error_leaves_goroutine
           (run broken_store "d" "/tmp/out" [Main; Worker 0; Main]
                (DownloadDirectory_init broken_store "d" demo_world))).
  - apply run_reachable.
  - apply quiescent_nf. reflexivity.
Defined.

(** ** The sequential facade *)









(** C9: the service is determined by the construction (the client built
    from the connection data, no lifecycle rules, the bucket name, and
    the one query parameter [response-content-disposition=inline]), and
    no operation changes it: after [AddLifeCycleRule], [UploadJSONFile],
    [GetFileURL], [UploadJSONFileWithLink] and [DownloadFile], and in
    every state a call of [DownloadDirectory] reaches, the fields of the
    [S3Service] are those before the call. *)
Theorem S3Service_unchanged
        (store : Store) (w : World) (path localPath : string) (σ : State) :
  reachable store path localPath w σ ->
  svc (world σ) = svc w
  /\ (forall sched,
        svc (after (DownloadDirectory store path localPath sched) w) = svc w)
  /\ (forall ruleID folderPath days,
        svc (after (AddLifeCycleRule store ruleID folderPath days) w) = svc w)
  /\ (forall p data, svc (after (UploadJSONFile store p data) w) = svc w)
  /\ (forall p expiration,
        svc (after (GetFileURL store p expiration) w) = svc w)
  /\ (forall p data expiration,
        svc (after (UploadJSONFileWithLink store p data expiration) w)
        = svc w)
  /\ (forall p dest, svc (after (DownloadFile store p dest) w) = svc w)
  /\ (forall url accessKey accessSecret bucket,
        match NewS3Service store url accessKey accessSecret bucket with
        | (Some s, _) =>
            minio_New store url accessKey accessSecret true
            = inl (s3Client s)
            /\ lifeCycleRules s = ""
            /\ bucketName s = bucket
            /\ urlValues s = {["response-content-disposition" := ["inline"]]}
        | (None, _) => True
        end).
Proof.
  intros Hσ. split; [|repeat split].
  - apply (c_svc store path localPath w).
    by apply reachable_consistent.
  - intros sched. apply (c_svc store path localPath w).
    apply reachable_consistent, run_reachable.
  - intros p data. unfold after, UploadJSONFile, mbind, M_bind, field, send.
    simpl. by destruct (PutObject _ _ _ _ _ _ _).
  - intros p data expiration.
    unfold after, UploadJSONFileWithLink, mbind, M_bind, field, send.
    simpl. by destruct (PutObject _ _ _ _ _ _ _) as [? [?|]].
  - intros url accessKey accessSecret bucket. unfold NewS3Service.
    destruct (minio_New _ _ _ _ _) as [c|?]; [|done].
    by destruct (BucketExists _ _ _) as [[|] [?|]].
Qed.

Lemma S3Service_unchanged_witness :
  svc (world (run reports_store "reports/2024" "/tmp/out"
                  [Main; Main; Worker 1; Main]
                  (DownloadDirectory_init reports_store "reports/2024"
                                          demo_world)))
  = demo_service.
Proof.
  apply (S3Service_unchanged reports_store demo_world "reports/2024" "/tmp/out").
  apply run_reachable.
Defined.

(** C10: the outcome of [UploadJSONFileWithLink] is the same for any two
    expiration arguments: after the upload it asks for one presigned URL,
    with an expiry of 24 hours (86400000000000 ns), whatever the caller
    passed. *)
Theorem UploadJSONFileWithLink_expiration
        (store : Store) (path data : string) (e1 e2 : Duration) (w : World) :
  UploadJSONFileWithLink store path data e1 w
  = UploadJSONFileWithLink store path data e2 w
  /\ Forall (presigned_for 86400000000000%Z)
            (issued (UploadJSONFileWithLink store path data e1) w)
  /\ issued (UploadJSONFileWithLink store path data e1) w
     = ReqPutObject (bucketName (svc w)) path data (-1) "application/json"
       :: match snd (PutObject store (s3Client (svc w)) (bucketName (svc w))
                               path data (-1) "application/json") with
          | Some _ => []
          | None => [ReqPresignedGetObject (bucketName (svc w)) path
                       86400000000000%Z (urlValues (svc w))]
          end.
Proof.
  assert (forall e,
            issued (UploadJSONFileWithLink store path data e) w
            = ReqPutObject (bucketName (svc w)) path data (-1)
                           "application/json"
              :: match snd (PutObject store (s3Client (svc w))
                              (bucketName (svc w)) path data (-1)
                              "application/json") with
                 | Some _ => []
                 | None => [ReqPresignedGetObject (bucketName (svc w)) path
                              86400000000000%Z (urlValues (svc w))]
                 end) as Hissued.
  { intros e.
    unfold issued, after, UploadJSONFileWithLink, mbind, M_bind, field, send.
    simpl. destruct (PutObject _ _ _ _ _ _ _) as [n [err|]]; simpl.
    - by rewrite drop_app_length.
    - by rewrite <- app_assoc, drop_app_length. }
  split; [done|]. split; [|apply Hissued].
  rewrite Hissued. constructor; [done|].
  destruct (snd _); by repeat constructor.
Qed.

(** * Further properties of the code *)

(** ** Construction *)

(** X1: [NewS3Service] hands back either a service or an error, never
    both and never neither; it hands back a service exactly when
    [minio.New] succeeds and [BucketExists] answers true without an
    error; an error of [minio.New] or of [BucketExists] is returned as it
    is, the latter also when the answer was true. *)
Theorem NewS3Service_outcome
        (store : Store) (url accessKey accessSecret bucket : string) :
  let r := NewS3Service store url accessKey accessSecret bucket in
  (is_Some (fst r) <-> snd r = None)
  /\ (is_Some (fst r) <->
      exists c, minio_New store url accessKey accessSecret true = inl c
                /\ BucketExists store c bucket = (true, None))
  /\ (forall e, minio_New store url accessKey accessSecret true = inr e ->
                r = (None, Some e))
  /\ (forall c b e,
        minio_New store url accessKey accessSecret true = inl c ->
        BucketExists store c bucket = (b, Some e) ->
        r = (None, Some e)).
Proof.
  unfold NewS3Service, is_Some.
  destruct (minio_New store url accessKey accessSecret true) as [c|e0] eqn:Hnew;
    [destruct (BucketExists store c bucket) as [[|] [e1|]] eqn:Hex|];
    simpl; (split; [|split; [|split]]);
    try (split; [intros [? ?] | intros (? & ? & ?)]);
    try (split; [intros [? ?] | intros ?]);
    intros; simplify_eq; eauto; congruence.
Qed.

(** X2: when the client is built and the store answers that the bucket
    does not exist, [NewS3Service] returns no service and the error
    [s3 bucket (<name>) doesn't exist], with the bucket name as given. *)
Theorem NewS3Service_missing_bucket
        (store : Store) (url accessKey accessSecret bucket : string)
        (c : Client) :
  minio_New store url accessKey accessSecret true = inl c ->
  BucketExists store c bucket = (false, None) ->
  NewS3Service store url accessKey accessSecret bucket
  = (None, Some (ErrorString ("s3 bucket (" +:+ bucket +:+ ") doesn't exist"))).
Proof.
  intros Hnew Hex. unfold NewS3Service. rewrite Hnew, Hex. reflexivity.
Qed.

Lemma NewS3Service_missing_bucket_witness :
  NewS3Service bucketless_store "play.min.io" "key" "secret" "reports"
  = (None, Some (ErrorString "s3 bucket (reports) doesn't exist")).
Proof.
  apply (NewS3Service_missing_bucket bucketless_store "play.min.io" "key"
           "secret" "reports" (mkClient "play.min.io" "key" "secret" true)).
  - reflexivity.
  - reflexivity.
Defined.

(** ** The facade *)

(** X3: [UploadJSONFileWithLink] is [UploadJSONFile] followed, when the
    upload returned no error, by [GetFileURL] for the same path with an
    expiration of 24 hours; when the upload fails, its error is returned
    with no URL and nothing more is asked of the store. *)
Theorem UploadJSONFileWithLink_composes
        (store : Store) (path data : string) (expiration : Duration)
        (w : World) :
  UploadJSONFileWithLink store path data expiration w
  = (err ← UploadJSONFile store path data;
     match err with
     | Some e => mret (None, Some e)
     | None => GetFileURL store path (24 * Hour)%Z
     end) w.
Proof.
  unfold UploadJSONFileWithLink, UploadJSONFile, GetFileURL,
    mbind, M_bind, mret, M_ret, field, send.
  simpl. by destruct (PutObject _ _ _ _ _ _ _) as [n [e|]].
Qed.

(** X4: on a service built by [NewS3Service], [GetFileURL] asks the store
    for one presigned URL of the given path in the bucket the service was
    built for, with the expiration the caller passed and the one query
    parameter [response-content-disposition=inline], and returns the
    store's answer. *)
Theorem GetFileURL_on_new_service
        (store : Store) (url accessKey accessSecret bucket : string)
        (s : S3Service) (err : option error)
        (path : string) (expiration : Duration) (sent : list Request) :
  NewS3Service store url accessKey accessSecret bucket = (Some s, err) ->
  issued (GetFileURL store path expiration) (mkWorld s sent)
  = [ReqPresignedGetObject bucket path expiration
       {["response-content-disposition" := ["inline"]]}]
  /\ result (GetFileURL store path expiration) (mkWorld s sent)
     = PresignedGetObject store (s3Client s) bucket path expiration
         {["response-content-disposition" := ["inline"]]}.
Proof.
  unfold NewS3Service.
  destruct (minio_New _ _ _ _ _) as [c|?]; [|done].
  destruct (BucketExists _ _ _) as [[|] [?|]]; try done.
  intros [= <- <-]. split; [|done].
  unfold issued, after, GetFileURL, mbind, M_bind, field, send. simpl.
  by rewrite drop_app_length.
Qed.

Lemma GetFileURL_on_new_service_witness :
  issued (GetFileURL reports_store "reports/2024/a.json" (2 * Hour)%Z)
         (mkWorld demo_service [])
  = [ReqPresignedGetObject "bucket" "reports/2024/a.json" (2 * Hour)%Z
       {["response-content-disposition" := ["inline"]]}]
  /\ result (GetFileURL reports_store "reports/2024/a.json" (2 * Hour)%Z)
            (mkWorld demo_service [])
     = PresignedGetObject reports_store (s3Client demo_service) "bucket"
         "reports/2024/a.json" (2 * Hour)%Z
         {["response-content-disposition" := ["inline"]]}.
Proof.
  apply (GetFileURL_on_new_service reports_store "play.min.io" "key" "secret"
           "bucket" demo_service None).
  reflexivity.
Defined.

(** X5: a folder path without the trailing separator and the same path
    with it register the same rule: [AddLifeCycleRule] behaves on
    [folderPath] as on [folderPath + "/"]. *)
Theorem AddLifeCycleRule_separator
        (store : Store) (ruleID folderPath : string) (daysToExpiry : Z)
        (w : World) :
  gostrings.HasSuffix folderPath "/" = false ->
  AddLifeCycleRule store ruleID folderPath daysToExpiry w
  = AddLifeCycleRule store ruleID (folderPath +:+ "/") daysToExpiry w.
Proof.
  intros Hf. unfold AddLifeCycleRule.
  assert (gostrings.HasSuffix (folderPath +:+ "/") "/" = true) as ->
    by (apply HasSuffix_true; by exists folderPath).
  by rewrite Hf.
Qed.

Lemma AddLifeCycleRule_separator_witness :
  AddLifeCycleRule reports_store "r1" "logs" 30 demo_world
  = AddLifeCycleRule reports_store "r1" "logs/" 30 demo_world.
Proof.
  apply (AddLifeCycleRule_separator reports_store "r1" "logs" 30 demo_world).
  reflexivity.
Defined.

(** X6: the empty folder path is not taken as the whole bucket: for any
    rule and day count, [AddLifeCycleRule] with [folderPath = ""] submits
    a rule whose prefix is ["/"]. *)
Theorem AddLifeCycleRule_empty_folder
        (store : Store) (ruleID : string) (daysToExpiry : Z) (w : World) :
  issued (AddLifeCycleRule store ruleID "" daysToExpiry) w
  = [ReqSetBucketLifecycle (bucketName (svc w))
       ("<LifecycleConfiguration><Rule><ID>" +:+ ruleID
        +:+ "</ID><Prefix>/</Prefix><Status>Enabled</Status><Expiration><Days>"
        +:+ gofmt.formatInt daysToExpiry
        +:+ "</Days></Expiration></Rule></LifecycleConfiguration>")].
Proof.
  unfold issued, after, AddLifeCycleRule, mbind, M_bind, field, send. simpl.
  by rewrite drop_app_length.
Qed.

(** ** The local file of a key *)

(** X7: the directory structure below the prefix is mirrored below the
    local root: the key [path/rest] gets the local file
    [localPath/rest]. *)
Theorem localFile_mirrors (path localPath rest : string) :
  localFile path localPath (path +:+ "/" +:+ rest)
  = localPath +:+ "/" +:+ rest.
Proof. apply localFile_under. Qed.

(** X8: a prefix given with its trailing separator is not stripped: for
    the prefix [dir/] a key [dir/rest] (with [rest] not starting with a
    further separator) keeps its whole name below the local root. *)
Theorem localFile_trailing_separator (dir localPath rest : string) :
  gostrings.HasPrefix rest "/" = false ->
  localFile (dir +:+ "/") localPath (dir +:+ "/" +:+ rest)
  = localPath +:+ "/" +:+ dir +:+ "/" +:+ rest.
Proof.
  intros Hrest. unfold localFile. rewrite TrimPrefix_other; [done|].
  apply not_true_is_false. intros H.
  apply HasPrefix_true in H as [r Hr].
  rewrite !app_assoc_s in Hr.
  apply (inj (String.app dir)) in Hr.
  apply (inj (String.app "/")) in Hr.
  assert (gostrings.HasPrefix rest "/" = true) as Ht
    by (apply HasPrefix_true; by exists r).
  congruence.
Qed.

Lemma localFile_trailing_separator_witness :
  localFile ("reports/2024" +:+ "/") "/tmp/out"
            ("reports/2024" +:+ "/" +:+ "a.json")
  = "/tmp/out" +:+ "/" +:+ "reports/2024" +:+ "/" +:+ "a.json".
Proof.
  apply (localFile_trailing_separator "reports/2024" "/tmp/out" "a.json").
  reflexivity.
Defined.

(** ** The goroutines of the directory download *)

Section Goroutines.

Variable store : Store.
Variables path localPath : string.
Variable w : World.

(** X9: no interleaving of [DownloadDirectory] panics: [wg.Done()] never
    takes the counter below zero and no goroutine sends on the closed
    [errCh]. *)
Theorem DownloadDirectory_never_panics (σ : State) :
  reachable store path localPath w σ -> panicked σ = false.
Proof.
  intros Hσ. apply (c_panicked store path localPath w).
  by apply reachable_consistent.
Qed.

(** X10: the [WaitGroup] counter is at every moment the number of started
    goroutines that have not returned, and [errCh] is closed only when
    every started goroutine has returned and the caller is past its
    loop over the listing. *)
Theorem DownloadDirectory_barrier (σ : State) :
  reachable store path localPath w σ ->
  wg σ = pending (workers σ)
  /\ (errChClosed σ = true ->
      Forall (fun g => pc g = WDone) (workers σ)
      /\ obj <$> workers σ = listing store path w
      /\ closer σ = CDone).
Proof.
  intros Hσ. apply (reachable_consistent store path localPath w) in Hσ.
  split; [apply (c_wg _ _ _ _ _ Hσ)|]. intros Hclosed.
  assert (pending (workers σ) = 0
          /\ obj <$> workers σ = listing store path w
          /\ closer σ = CDone) as (Hp & HL & Hc).
  { pose proof (c_main _ _ _ _ _ Hσ) as Hmain.
    destruct (main σ) as [rest|errs|r].
    - destruct Hmain as (_ & _ & ? & _). congruence.
    - destruct Hmain as (? & _ & _ & Hec). rewrite Hclosed in Hec.
      by destruct Hec.
    - destruct Hmain as (_ & [(? & ? & ? & ? & _ & _ & _ & _ & _ & ? & _)
                             |(? & ? & _ & ? & _)]); [congruence|done]. }
  repeat split; try done.
  apply sum_list_with_zero in Hp.
  eapply Forall_impl; [exact Hp|]. intros g Hg. simpl in Hg.
  by destruct (pc g).
Qed.

(** X11: [doneCh] is closed exactly when the caller has returned, on
    either exit: the listing is released on every return and is never
    cut off while the caller still ranges over it or drains [errCh]. *)
Theorem DownloadDirectory_doneCh (σ : State) :
  reachable store path localPath w σ ->
  doneChClosed σ = true <-> exists r, main σ = MReturned r.
Proof.
  intros Hσ. apply (reachable_consistent store path localPath w) in Hσ.
  pose proof (c_main _ _ _ _ _ Hσ) as Hmain.
  destruct (main σ) as [rest|errs|r].
  - destruct Hmain as (_ & _ & _ & ? & _).
    split; [congruence | by intros [? ?]].
  - destruct Hmain as (_ & ? & _).
    split; [congruence | by intros [? ?]].
  - destruct Hmain as (? & _). split; [by eexists | done].
Qed.

(** X12: the first request of a call is the recursive listing of the
    prefix in the bucket of the service, and all that follows are
    [FGetObject] requests on that bucket, each for a listed object that
    is no pseudo-directory, to its local file. *)
Theorem DownloadDirectory_requests (σ : State) :
  reachable store path localPath w σ ->
  log (world σ)
  = log w ++ ReqListObjectsV2 (bucketName (svc w)) path true
      :: downloads w σ
  /\ Forall (fun req =>
               exists o, o ∈ listing store path w
                 /\ gostrings.HasSuffix (Key o) "/" = false
                 /\ req = ReqFGetObject (bucketName (svc w)) (Key o)
                            (localFile path localPath (Key o)))
            (downloads w σ).
Proof.
  intros Hσ. apply (reachable_consistent store path localPath w) in Hσ.
  split.
  - destruct (c_log _ _ _ _ _ Hσ) as (ds & Hlog & _).
    unfold downloads. by rewrite Hlog, drop_log.
  - apply Forall_forall. intros req Hreq.
    destruct (consistent_download_of _ _ _ _ _ _ Hσ Hreq) as (o & Ho & Hd).
    exists o. destruct (consistent_dispatched _ _ _ _ _ Hσ) as [k Hk].
    split; [rewrite Hk; apply elem_of_app; by left|].
    unfold download_of in Hd.
    destruct (gostrings.HasSuffix (Key o) "/"); [done|].
    by injection Hd as <-.
Qed.

End Goroutines.

Lemma DownloadDirectory_never_panics_witness :
  panicked (run flaky_store "reports/2024" "/tmp/out"
                [Main; Main; Worker 1; Main; Worker 0; Main; Worker 2;
                 Worker 1; Worker 2; Worker 2; Closer; Main]
                (DownloadDirectory_init flaky_store "reports/2024" demo_world))
  = false.
Proof.
  apply (DownloadDirectory_never_panics flaky_store "reports/2024" "/tmp/out"
           demo_world).
  apply run_reachable.
Defined.

Lemma DownloadDirectory_barrier_witness :
  let σ := run flaky_store "reports/2024" "/tmp/out"
               [Main; Main; Main; Main; Worker 0; Worker 1; Worker 2;
                Worker 1; Worker 2; Worker 2; Closer]
               (DownloadDirectory_init flaky_store "reports/2024" demo_world) in
  errChClosed σ = true
  /\ wg σ = pending (workers σ)
  /\ Forall (fun g => pc g = WDone) (workers σ)
  /\ obj <$> workers σ = listing flaky_store "reports/2024" demo_world
  /\ closer σ = CDone.
Proof.
  intros σ.
  destruct (DownloadDirectory_barrier flaky_store "reports/2024" "/tmp/out"
              demo_world σ (run_reachable _ _ _ _ _)) as [Hwg Hclosed].
  destruct (Hclosed eq_refl) as (Hdone & HL & Hc).
  repeat split; assumption.
Defined.

Lemma DownloadDirectory_doneCh_witness :
  let σ := run broken_store "d" "/tmp/out" [Main; Worker 0; Main]
               (DownloadDirectory_init broken_store "d" demo_world) in
  doneChClosed σ = true <-> exists r, main σ = MReturned r.
Proof.
  apply (DownloadDirectory_doneCh broken_store "d" "/tmp/out" demo_world).
  apply run_reachable.
Defined.

Lemma DownloadDirectory_requests_witness :
  let σ := run flaky_store "reports/2024" "/tmp/out"
               [Main; Main; Main; Worker 1; Worker 0]
               (DownloadDirectory_init flaky_store "reports/2024" demo_world) in
  log (world σ)
  = log demo_world
      ++ ReqListObjectsV2 (bucketName (svc demo_world)) "reports/2024" true
      :: downloads demo_world σ
  /\ Forall (fun req =>
               exists o, o ∈ listing flaky_store "reports/2024" demo_world
                 /\ gostrings.HasSuffix (Key o) "/" = false
                 /\ req = ReqFGetObject (bucketName (svc demo_world)) (Key o)
                            (localFile "reports/2024" "/tmp/out" (Key o)))
            (downloads demo_world σ).
Proof.
  apply (DownloadDirectory_requests flaky_store "reports/2024" "/tmp/out"
           demo_world).
  apply run_reachable.
Defined.

(** ** What a call has done when it returns *)

Section Outcomes.

Variable store : Store.
Variables path localPath : string.
Variable w : World.

(** X13: a failed download stops nothing: when the listing reports no
    error, every object that is no pseudo-directory has been requested
    exactly once by the time the caller returns, to its local file,
    whatever the other downloads returned. *)
Theorem DownloadDirectory_attempts_all (keys : list string) :
  listing store path w = object <$> keys ->
  returns_with store path localPath w
    (fun _ σ =>
       downloads w σ
       ≡ₚ (fun key => ReqFGetObject (bucketName (svc w)) key
                        (localPath +:+ "/"
                         +:+ gostrings.TrimPrefix key (path +:+ "/")))
            <$> filter (fun key => gostrings.HasSuffix key "/" = false) keys).
Proof.
  intros HL. apply returns_with_intro. intros σ r Hc Hr.
  assert (Forall no_error (listing store path w)) as HL'.
  { rewrite HL. apply Forall_fmap. by apply Forall_true. }
  pose proof (no_error_drained _ _ _ _ _ _ Hc HL' Hr) as Hd.
  destruct (drained_exit_result _ _ _ _ _ _ Hc Hd) as (_ & _ & Hdown).
  by rewrite <- omap_download_of, <- HL.
Qed.

(** X14: when the listing reports no error and exactly one download
    fails, with the error [e], every interleaving returns the error with
    the text [failed to download files from s3: [<text of e>]]. *)
Theorem DownloadDirectory_one_failure (e : error) :
  Forall no_error (listing store path w) ->
  omap (failure_of store path localPath (svc w)) (listing store path w) = [e] ->
  returns_with store path localPath w
    (fun r _ =>
       r = Some (ErrorString
                   ("failed to download files from s3: [" +:+ Error e +:+ "]"))).
Proof.
  intros HL Hone. apply returns_with_intro. intros σ r Hc Hr.
  pose proof (no_error_drained _ _ _ _ _ _ Hc HL Hr) as Hd.
  destruct Hd as (_ & _ & _ & _ & errs & Herrs & ->).
  rewrite Hone in Herrs. apply Permutation_singleton_r in Herrs.
  by subst errs.
Qed.

(** X15: when the listing reports no error, the caller returns only after
    all is over: one goroutine was started per entry of the listing
    (pseudo-directories included, with no bound on their number), each
    has returned, the [WaitGroup] counter is zero, [errCh] is closed, and
    no goroutine can take a further step. *)
Theorem DownloadDirectory_returns_last :
  Forall no_error (listing store path w) ->
  returns_with store path localPath w
    (fun _ σ =>
       obj <$> workers σ = listing store path w
       /\ Forall (fun g => pc g = WDone) (workers σ)
       /\ wg σ = 0
       /\ errChClosed σ = true
       /\ nf (steps store path localPath) σ).
Proof.
  intros HL. apply returns_with_intro. intros σ r Hc Hr.
  pose proof (no_error_drained _ _ _ _ _ _ Hc HL Hr) as Hd.
  destruct Hd as (Hobj & Hcl & Hec & Hpend & _).
  assert (Forall (fun g => pc g = WDone) (workers σ)) as Hdone.
  { apply sum_list_with_zero in Hpend.
    eapply Forall_impl; [exact Hpend|]. intros g Hg. simpl in Hg.
    by destruct (pc g). }
  repeat split; try done.
  - by rewrite (c_wg _ _ _ _ _ Hc).
  - intros (σ' & t & Ht). unfold step in Ht.
    rewrite (c_panicked _ _ _ _ _ Hc) in Ht.
    destruct t as [|i|].
    + by rewrite Hr in Ht.
    + destruct (workers σ !! i) as [g|] eqn:Hi; [|done].
      eapply Forall_lookup_1 in Hdone; [|exact Hi]. simpl in Hdone.
      by rewrite Hdone in Ht.
    + by rewrite Hcl in Ht.
Qed.

(** X16: a call on an empty listing returns success; no goroutine was
    started for an object, the one goroutine started is that of lines
    123-126, which has closed [errCh] and returned, and the store was
    asked for nothing but the listing. *)
Theorem DownloadDirectory_empty :
  listing store path w = [] ->
  returns_with store path localPath w
    (fun r σ =>
       r = None
       /\ workers σ = []
       /\ closer σ = CDone
       /\ errChClosed σ = true
       /\ wg σ = 0
       /\ log (world σ)
          = log w ++ [ReqListObjectsV2 (bucketName (svc w)) path true]).
Proof.
  intros HL. apply returns_with_intro. intros σ r Hc Hr.
  assert (Forall no_error (listing store path w)) as HL'
    by (rewrite HL; constructor).
  pose proof (no_error_drained _ _ _ _ _ _ Hc HL' Hr) as Hd.
  destruct (drained_exit_result _ _ _ _ _ _ Hc Hd)
    as ((Hnone & _) & Hfail & Hdown).
  destruct Hd as (Hobj & Hcl & Hec & Hpend & _).
  rewrite HL in Hobj, Hfail, Hdown. simpl in Hdown.
  apply Permutation_nil_r in Hdown.
  repeat split; try done.
  - by apply Hnone.
  - by apply fmap_nil_inv in Hobj.
  - by rewrite (c_wg _ _ _ _ _ Hc).
  - destruct (c_log _ _ _ _ _ Hc) as (ds & Hlog & _).
    unfold downloads in Hdown. rewrite Hlog, drop_log in Hdown.
    by rewrite Hlog, Hdown.
Qed.

(** X17: the two kinds of failure can be told apart: when the listing
    reports no error, a result that is not success is an error made by
    [fmt.Errorf] whose text begins with
    [failed to download files from s3: []; it is never an error value of
    the store. *)
Theorem DownloadDirectory_failure_kind :
  Forall no_error (listing store path w) ->
  returns_with store path localPath w
    (fun r _ =>
       r = None
       \/ exists text,
            r = Some (ErrorString
                        ("failed to download files from s3: [" +:+ text))).
Proof.
  intros HL. apply returns_with_intro. intros σ r Hc Hr.
  pose proof (no_error_drained _ _ _ _ _ _ Hc HL Hr) as Hd.
  destruct Hd as (_ & _ & _ & _ & errs & _ & ->).
  destruct errs as [|e errs]; [by left|]. right. by eexists.
Qed.

(** X18: after the exit on an enumeration error, once no goroutine can
    move, every started goroutine whose download does not fail has
    returned, and every one whose download fails with [e] stands at its
    send of [e] on [errCh], which nobody receives from: the [WaitGroup]
    counter stays at the number of failed downloads. *)
Theorem enumeration_exit_final
        (σ : State) (pre post : list ObjectInfo) (o : ObjectInfo) (e : error) :
  reachable store path localPath w σ ->
  nf (steps store path localPath) σ ->
  listing store path w = pre ++ o :: post ->
  Forall no_error pre ->
  Err o = Some e ->
  Forall (fun g =>
            pc g = match failure_of store path localPath (svc w) (obj g) with
                   | Some e' => WSend e'
                   | None => WDone
                   end)
         (workers σ)
  /\ wg σ = length (omap (failure_of store path localPath (svc w))
                         (obj <$> workers σ))
  /\ closer σ = CNone.
Proof.
  intros Hσ Hnf HL Hpre He.
  assert (Forall (fun g =>
            pc g = match failure_of store path localPath (svc w) (obj g) with
                   | Some e' => WSend e'
                   | None => WDone
                   end) (workers σ)) as Hall.
  { apply Forall_forall. intros g Hg.
    destruct (failure_of store path localPath (svc w) (obj g)) as [e'|] eqn:Hf.
    - by eapply enumeration_exit_blocks.
    - pose proof (reachable_consistent _ _ _ _ _ Hσ) as Hc.
      pose proof Hg as Hg'. apply list_elem_of_lookup in Hg' as [i Hi].
      destruct (pc g) as [|e''| |] eqn:Hpc; [| |  |done].
      + exfalso. apply Hnf.
        assert (is_Some (step store path localPath (Worker i) σ)) as [σ' H];
          [|by exists σ', (Worker i)].
        unfold step. rewrite (c_panicked _ _ _ _ _ Hc), Hi, Hpc.
        destruct (gostrings.HasSuffix _ _); [done|].
        by destruct (DownloadFile _ _ _ _) as [[?|] ?].
      + pose proof (c_send _ _ _ _ _ Hc g e'' Hg Hpc). congruence.
      + exfalso. apply Hnf.
        assert (is_Some (step store path localPath (Worker i) σ)) as [σ' H];
          [|by exists σ', (Worker i)].
        unfold step. by rewrite (c_panicked _ _ _ _ _ Hc), Hi, Hpc. }
  pose proof (reachable_consistent _ _ _ _ _ Hσ) as Hc.
  split; [done|]. split.
  - rewrite (c_wg _ _ _ _ _ Hc). clear -Hall.
    induction Hall as [|g ws Hg _ IH]; [done|].
    unfold pending in *. simpl. rewrite IH.
    destruct (failure_of store path localPath (svc w) (obj g));
      by rewrite Hg.
  - destruct (consistent_progress _ _ _ _ _ Hc Hnf) as [r Hr].
    by destruct (error_enumeration_exit _ _ _ _ _ _ _ _ _ _ Hc HL Hpre He Hr)
      as (_ & _ & ? & _).
Qed.

End Outcomes.

Lemma DownloadDirectory_attempts_all_witness :
  returns_with flaky_store "reports/2024" "/tmp/out" demo_world
    (fun _ σ =>
       downloads demo_world σ
       ≡ₚ (fun key => ReqFGetObject (bucketName (svc demo_world)) key
                        ("/tmp/out" +:+ "/"
                         +:+ gostrings.TrimPrefix key ("reports/2024" +:+ "/")))
            <$> filter (fun key => gostrings.HasSuffix key "/" = false)
                       ["reports/2024/"; "reports/2024/a.json";
                        "reports/2024/b.json"]).
Proof.
  apply (DownloadDirectory_attempts_all flaky_store "reports/2024" "/tmp/out"
           demo_world
           ["reports/2024/"; "reports/2024/a.json"; "reports/2024/b.json"]).
  reflexivity.
Defined.

Lemma DownloadDirectory_one_failure_witness :
  returns_with flaky_store "reports/2024" "/tmp/out" demo_world
    (fun r _ =>
       r = Some (ErrorString
                   ("failed to download files from s3: ["
                    +:+ Error download_error +:+ "]"))).
Proof.
  apply (DownloadDirectory_one_failure flaky_store "reports/2024" "/tmp/out"
           demo_world download_error).
  - repeat constructor.
  - reflexivity.
Defined.

Lemma DownloadDirectory_returns_last_witness :
  returns_with flaky_store "reports/2024" "/tmp/out" demo_world
    (fun _ σ =>
       obj <$> workers σ = listing flaky_store "reports/2024" demo_world
       /\ Forall (fun g => pc g = WDone) (workers σ)
       /\ wg σ = 0
       /\ errChClosed σ = true
       /\ nf (steps flaky_store "reports/2024" "/tmp/out") σ).
Proof.
  apply (DownloadDirectory_returns_last flaky_store "reports/2024" "/tmp/out"
           demo_world).
  repeat constructor.
Defined.

Lemma DownloadDirectory_empty_witness :
  returns_with offline_store "reports/2024" "/tmp/out" demo_world
    (fun r σ =>
       r = None
       /\ workers σ = []
       /\ closer σ = CDone
       /\ errChClosed σ = true
       /\ wg σ = 0
       /\ log (world σ)
          = log demo_world
              ++ [ReqListObjectsV2 (bucketName (svc demo_world))
                                   "reports/2024" true]).
Proof.
  apply (DownloadDirectory_empty offline_store "reports/2024" "/tmp/out"
           demo_world).
  reflexivity.
Defined.

Lemma DownloadDirectory_failure_kind_witness :
  returns_with flaky_store "reports/2024" "/tmp/out" demo_world
    (fun r _ =>
       r = None
       \/ exists text,
            r = Some (ErrorString
                        ("failed to download files from s3: [" +:+ text))).
Proof.
  apply (DownloadDirectory_failure_kind flaky_store "reports/2024" "/tmp/out"
           demo_world).
  repeat constructor.
Defined.

Lemma enumeration_exit_final_witness :
  let σ := run broken_store "d" "/tmp/out" [Main; Main; Worker 0]
               (DownloadDirectory_init broken_store "d" demo_world) in
  Forall (fun g =>
            pc g = match failure_of broken_store "d" "/tmp/out"
                                    (svc demo_world) (obj g) with
                   | Some e' => WSend e'
                   | None => WDone
                   end)
         (workers σ)
  /\ wg σ = length (omap (failure_of broken_store "d" "/tmp/out"
                                     (svc demo_world))
                         (obj <$> workers σ))
  /\ closer σ = CNone.
Proof.
  apply (enumeration_exit_final broken_store "d" "/tmp/out" demo_world
           (run broken_store "d" "/tmp/out" [Main; Main; Worker 0]
                (DownloadDirectory_init broken_store "d" demo_world))
           [mkObjectInfo "d/k" None] []
           (mkObjectInfo "" (Some listing_error)) listing_error).
  - apply run_reachable.
  - apply quiescent_nf. reflexivity.
  - reflexivity.
  - repeat constructor.
  - reflexivity.
Defined.

(** ** The order of the failures in the aggregate *)

Lemma run_two_failures
      (store : Store) (path localPath : string) (w : World)
      (k1 k2 : string) (e1 e2 : error) (first second : nat) :
  listing store path w = [object k1; object k2] ->
  failure_of store path localPath (svc w) (object k1) = Some e1 ->
  failure_of store path localPath (svc w) (object k2) = Some e2 ->
  (first = 0 /\ second = 1) \/ (first = 1 /\ second = 0) ->
  let sched := [Main; Main; Main; Worker 0; Worker 1;
                Worker first; Worker second; Worker 0; Worker 1; Closer; Main] in
  receipts store path localPath sched (DownloadDirectory_init store path w)
  = (if decide (first = 0) then [e1; e2] else [e2; e1])
  /\ exists r, main (run store path localPath sched
                         (DownloadDirectory_init store path w))
               = MReturned r.
Proof.
  intros HL H1 H2 Horder.
  unfold failure_of in H1, H2. simpl in H1, H2.
  destruct (gostrings.HasSuffix k1 "/") eqn:Hs1; [done|].
  destruct (gostrings.HasSuffix k2 "/") eqn:Hs2; [done|].
  unfold DownloadDirectory_init, mbind, M_bind, mret, M_ret, field, send.
  fold (listing store path w). rewrite HL.
  unfold receipts, run, handed_over, step, DownloadFile,
    mbind, M_bind, mret, M_ret, field, send.
  simpl. rewrite Hs1. simpl. rewrite H1. simpl. rewrite Hs2, H2. simpl.
  destruct Horder as [[-> ->]|[-> ->]]; simpl; (split; [done | by eexists]).
Qed.

(** X19: the failures stand in the aggregate error in the order in which
    the caller received them, not in the order of the listing.  Whenever
    the caller has returned under a schedule, the result is the aggregate
    of the errors handed over along that schedule, in the order of the
    hand-overs; and for a listing of two objects whose downloads both
    fail there is a schedule under which the first object's error is
    received first and one under which the second's is, each returning
    the aggregate in its order of receipt. *)
Theorem aggregate_order_is_arrival
        (store : Store) (path localPath : string) (w : World) :
  Forall no_error (listing store path w) ->
  (forall sched r,
      main (run store path localPath sched
                (DownloadDirectory_init store path w))
      = MReturned r ->
      r = aggregate (receipts store path localPath sched
                              (DownloadDirectory_init store path w)))
  /\ (forall k1 k2 e1 e2,
        listing store path w = [object k1; object k2] ->
        failure_of store path localPath (svc w) (object k1) = Some e1 ->
        failure_of store path localPath (svc w) (object k2) = Some e2 ->
        (exists sched,
            receipts store path localPath sched
                     (DownloadDirectory_init store path w) = [e1; e2]
            /\ main (run store path localPath sched
                         (DownloadDirectory_init store path w))
               = MReturned (aggregate [e1; e2]))
        /\ (exists sched,
               receipts store path localPath sched
                        (DownloadDirectory_init store path w) = [e2; e1]
               /\ main (run store path localPath sched
                            (DownloadDirectory_init store path w))
                  = MReturned (aggregate [e2; e1]))).
Proof.
  intros HL.
  assert (forall sched r,
      main (run store path localPath sched
                (DownloadDirectory_init store path w))
      = MReturned r ->
      r = aggregate (receipts store path localPath sched
                              (DownloadDirectory_init store path w)))
    as Horder.
  { intros sched r Hrun.
    by apply (run_receipts store path localPath sched _ r Hrun). }
  split; [exact Horder|].
  intros k1 k2 e1 e2 Hk H1 H2. split.
  - destruct (run_two_failures store path localPath w k1 k2 e1 e2 0 1
                Hk H1 H2 (or_introl (conj eq_refl eq_refl)))
      as (Hrec & r & Hr).
    eexists. split; [exact Hrec|].
    rewrite Hr. f_equal. rewrite (Horder _ _ Hr). by rewrite Hrec.
  - destruct (run_two_failures store path localPath w k1 k2 e1 e2 1 0
                Hk H1 H2 (or_intror (conj eq_refl eq_refl)))
      as (Hrec & r & Hr).
    eexists. split; [exact Hrec|].
    rewrite Hr. f_equal. rewrite (Horder _ _ Hr). by rewrite Hrec.
Qed.

Lemma aggregate_order_is_arrival_witness :
  Some (ErrorString
          "failed to download files from s3: [cannot fetch d/b cannot fetch d/a]")
  = aggregate
      (receipts unfetchable_store "d" "/tmp/out"
         [Main; Main; Main; Worker 0; Worker 1;
          Worker 1; Worker 0; Worker 0; Worker 1; Closer; Main]
         (DownloadDirectory_init unfetchable_store "d" demo_world)).
Proof.
  apply (aggregate_order_is_arrival unfetchable_store "d" "/tmp/out"
           demo_world).
  - repeat constructor.
  - reflexivity.
Defined.

(** Under one schedule the second object's error arrives first. *)
Example unfetchable_run :
  let sched := [Main; Main; Main; Worker 0; Worker 1;
                Worker 1; Worker 0; Worker 0; Worker 1; Closer; Main] in
  receipts unfetchable_store "d" "/tmp/out" sched
           (DownloadDirectory_init unfetchable_store "d" demo_world)
  = [StoreError "cannot fetch d/b"; StoreError "cannot fetch d/a"]
  /\ result (DownloadDirectory unfetchable_store "d" "/tmp/out" sched)
            demo_world
     = Some (Some (ErrorString
                     "failed to download files from s3: [cannot fetch d/b cannot fetch d/a]")).
Proof. split; reflexivity. Qed.
